(** * setsolver: the Set rule, the two set finders, the card detector's
      geometry and the frame pipeline

    A shallow embedding of
    - [game/solver] (the Set rule, [findAllSets], [findAllSetsOptimized],
      [getThirdValue], [indicesToCard]),
    - [analysis/opencv-detector.ts] ([orderCorners], [rectanglesOverlap],
      [detectWithStrategy], [detectCardsOpenCV], [warpCardToImageData]),
    - [hooks/useSetSolver.ts] ([processFrame] and its guard flag,
      [generateMockCards]),
    - [analysis/inference.ts] ([argmax], [postprocess], [resize]),
    - [App.tsx] and [components/Canvas.tsx] (which set is shown).

    Conventions.  A JavaScript [number] that holds a count or an index is a
    [nat] or a [Z]; one that holds a coordinate, an area or a ratio is a
    rational [Q].  The arithmetic of the detector is exact; that of
    [generateMockCards], whose bounds depend on it, is rounded to the
    nearest double ([Double]).  A value
    that may be [undefined] or [null] at run time is an [option], [None]
    standing for [undefined]/[null].  A call that may throw returns a
    [Completion]. *)

From Stdlib Require Import ZArith QArith Qminmax Qround Qpower Lqa Sorted String.
From stdpp Require Import base list strings gmap.

Local Open Scope string_scope.

(** * The program *)

(** ** Outcome of a call *)

Inductive Completion (A : Type) : Type :=
| Normal (v : A)
| Throws.
Arguments Normal {A} v.
Arguments Throws {A}.

(** ** src/types.ts *)

Inductive Shape := diamond | oval | squiggle.
Inductive Color := red | green | purple.
(** [type Number = 1 | 2 | 3] *)
Inductive Number := N1 | N2 | N3.
Inductive Shading := solid | striped | empty.

#[global] Instance Shape_eq_dec : EqDecision Shape.
Proof. solve_decision. Defined.
#[global] Instance Color_eq_dec : EqDecision Color.
Proof. solve_decision. Defined.
#[global] Instance Number_eq_dec : EqDecision Number.
Proof. solve_decision. Defined.
#[global] Instance Shading_eq_dec : EqDecision Shading.
Proof. solve_decision. Defined.

Record Point := { x : Q; y : Q }.

(** [[x1, y1, x2, y2]] *)
Definition BBox : Type := Q * Q * Q * Q.

(** The four properties of a card, as the solver's helpers return them
    ([{ shape; color; number; shading }]).  A property read from a table slot
    that does not exist is [undefined]. *)
Record CardProperties := {
  shape : option Shape;
  color : option Color;
  number : option Number;
  shading : option Shading
}.

(** [interface Card]; a card is used wherever its four properties are asked
    for, hence the coercion. *)
Record Card := {
  id : nat;
  bbox : BBox;
  corners : option (list Point);
  properties :> CardProperties;
  confidence : Q
}.

Module SetResult.
Record t := { cards : Card * Card * Card; indices : nat * nat * nat }.
End SetResult.

Module ProcessedResult.
Record t := {
  cards : list Card;
  sets : list SetResult.t;
  timestamp : Q;
  inferenceTime : Q
}.
End ProcessedResult.

Module ClassificationResult.
(** The probability vectors are not read by the code modelled here. *)
Record t := { shape : Z; color : Z; number : Z; shading : Z }.
End ClassificationResult.

(** ** game/solver *)

Module Solver.

Definition SHAPES : list Shape := [diamond; oval; squiggle].
Definition COLORS : list Color := [red; green; purple].
Definition NUMBERS : list Number := [N1; N2; N3].
Definition SHADINGS : list Shading := [solid; striped; empty].

(** [new Set(values).size] *)
Definition setSize {T} `{EqDecision T} (values : list T) : nat :=
  length (remove_dups values).

Definition isIdenticalOrDistinct {T} `{EqDecision T} (v1 v2 v3 : T) : bool :=
  let uniqueCount := setSize [v1; v2; v3] in
  negb (uniqueCount =? 2)%nat.

Definition isValidSet (c1 c2 c3 : Card) : bool :=
  isIdenticalOrDistinct (shape c1) (shape c2) (shape c3) &&
  isIdenticalOrDistinct (color c1) (color c2) (color c3) &&
  isIdenticalOrDistinct (number c1) (number c2) (number c3) &&
  isIdenticalOrDistinct (shading c1) (shading c2) (shading c3).

(** [for (let v = lo; v < hi; v++)]: the values the loop variable takes. *)
Definition range (lo hi : nat) : list nat := seq lo (hi - lo).

(** One test of the innermost loop body of [findAllSets].  The loop bounds
    keep [i], [j] and [k] below [cards.length], so the three lookups
    succeed (see [bruteStep_in_range]). *)
Definition bruteStep (cards : list Card) (i j k : nat) : list SetResult.t :=
  match cards !! i, cards !! j, cards !! k with
  | Some ci, Some cj, Some ck =>
      if isValidSet ci cj ck
      then [ {| SetResult.cards := (ci, cj, ck); SetResult.indices := (i, j, k) |} ]
      else []
  | _, _, _ => []
  end.

Definition findAllSets (cards : list Card) : list SetResult.t :=
  let n := length cards in
  i ← range 0 (n - 2);
  j ← range (i + 1) (n - 1);
  k ← range (j + 1) n;
  bruteStep cards i j k.

(** Template-literal rendering of a property value. *)
Definition showShape (s : Shape) : string :=
  match s with diamond => "diamond" | oval => "oval" | squiggle => "squiggle" end.
Definition showColor (c : Color) : string :=
  match c with red => "red" | green => "green" | purple => "purple" end.
Definition showNumber (n : Number) : string :=
  match n with N1 => "1" | N2 => "2" | N3 => "3" end.
Definition showShading (s : Shading) : string :=
  match s with solid => "solid" | striped => "striped" | empty => "empty" end.

Definition template {T} (show : T → string) (v : option T) : string :=
  from_option show "undefined" v.

(** [`${c.shape}-${c.color}-${c.number}-${c.shading}`] *)
Definition signature (c : CardProperties) : string :=
  template showShape (shape c) +:+ "-" +:+ template showColor (color c) +:+ "-" +:+
  template showNumber (number c) +:+ "-" +:+ template showShading (shading c).

(** [allValues.find(v => v !== v1 && v !== v2)], [undefined] when nothing
    is found. *)
Definition getThirdValue {T} `{EqDecision T}
    (v1 v2 : option T) (allValues : list T) : option T :=
  if decide (v1 = v2) then v1
  else List.find (λ v, bool_decide (Some v ≠ v1) && bool_decide (Some v ≠ v2)) allValues.

Definition computeRequiredThirdCard (c1 c2 : Card) : CardProperties :=
  {| shape := getThirdValue (shape c1) (shape c2) SHAPES;
     color := getThirdValue (color c1) (color c2) COLORS;
     number := getThirdValue (number c1) (number c2) NUMBERS;
     shading := getThirdValue (shading c1) (shading c2) SHADINGS |}.

(** [cards.forEach((card, idx) => cardMap.set(key, idx))]: a later card with
    the same signature overwrites the index of an earlier one. *)
Definition buildCardMap (cards : list Card) : gmap string nat :=
  fold_left (λ (m : gmap string nat) (e : nat * Card), <[signature e.2 := e.1]> m)
            (imap pair cards) ∅.

Definition optimizedStep (cards : list Card) (cardMap : gmap string nat)
    (i j : nat) : list SetResult.t :=
  match cards !! i, cards !! j with
  | Some ci, Some cj =>
      let required := computeRequiredThirdCard ci cj in
      let key := signature required in
      match cardMap !! key with
      | Some k =>
          if (j <? k)%nat then
            match cards !! k with
            | Some ck =>
                [ {| SetResult.cards := (ci, cj, ck); SetResult.indices := (i, j, k) |} ]
            | None => []
            end
          else []
      | None => []
      end
  | _, _ => []
  end.

Definition findAllSetsOptimized (cards : list Card) : list SetResult.t :=
  let cardMap := buildCardMap cards in
  i ← range 0 (length cards - 1);
  j ← range (i + 1) (length cards);
  optimizedStep cards cardMap i j.

(** [table[idx]] for a numeric index: [undefined] outside the table. *)
Definition tableAt {T} (table : list T) (idx : Z) : option T :=
  if (idx <? 0)%Z then None else table !! Z.to_nat idx.

(** The body is a single object literal: no statement of it can throw. *)
Definition indicesToCard (shapeIdx colorIdx numberIdx shadingIdx : Z)
    : Completion CardProperties :=
  Normal {| shape := tableAt SHAPES shapeIdx;
            color := tableAt COLORS colorIdx;
            number := tableAt NUMBERS numberIdx;
            shading := tableAt SHADINGS shadingIdx |}.

(** ['all same' | 'all different'] *)
Inductive Verdict := all_same | all_different.

Module Analysis.
Record t := { shape : Verdict; color : Verdict; number : Verdict; shading : Verdict }.
End Analysis.

(** The local [analyze] of [analyzeSet]. *)
Definition analyze {T} `{EqDecision T} (values : list T) : Verdict :=
  let unique := setSize values in
  if (unique =? 1)%nat then all_same else all_different.

Definition analyzeSet (cards : Card * Card * Card) : Analysis.t :=
  let '(c1, c2, c3) := cards in
  {| Analysis.shape := analyze [shape c1; shape c2; shape c3];
     Analysis.color := analyze [color c1; color c2; color c3];
     Analysis.number := analyze [number c1; number c2; number c3];
     Analysis.shading := analyze [shading c1; shading c2; shading c3] |}.

End Solver.

(** ** analysis/opencv-detector.ts *)

(** Comparisons of JavaScript numbers. *)
Definition Qltb (a b : Q) : bool := negb (Qle_bool b a).
Definition Qgtb (a b : Q) : bool := Qltb b a.

Module CardDetection.
Record t := { bbox : BBox; corners : list Point; confidence : Q }.
End CardDetection.

Record ImageData := { width : Z; height : Z; data : list Z }.

(** One strategy of the ensemble. *)
Record StrategyParams := {
  sThresh : Z; vThresh : Z; cannyLow : Z; cannyHigh : Z; morphSize : Z
}.

(** What the engine measures on one external contour: [cv.contourArea],
    the size and the four points of [cv.minAreaRect], and the standard
    deviation of the saturation channel inside [cv.boundingRect]. *)
Record Contour := {
  area : Q;
  rectWidth : Q;
  rectHeight : Q;
  rectPoints : list Point;
  satStd : Q
}.

(** The global [cv] when it is defined.  The image operations are the
    engine's own: the model takes their results, and that any of them may
    throw.
    - [hasMat]: [typeof cv.Mat !== 'undefined'];
    - [findContours]: the contours found in the image (downscaled to the
      given rows and columns) under one strategy, each with its measures;
    - [warpPerspective]: the source image resampled from the four source
      corners to an image of the given size. *)
Record Engine := {
  hasMat : bool;
  findContours : ImageData → Z → Z → StrategyParams → Completion (list Contour);
  warpPerspective : ImageData → list Point → Z → Z → Completion ImageData
}.

#[global] Instance Completion_ret : MRet Completion := @Normal.
#[global] Instance Completion_bind : MBind Completion :=
  λ A B f c, match c with Normal v => f v | Throws => Throws end.

Module Detector.

(** [Math.min(...values)] and [Math.max(...values)]; [None] when there are
    no values (JavaScript gives an infinity, which is no element). *)
Definition extremum (pick : Q → Q → Q) (values : list Q) : option Q :=
  match values with
  | [] => None
  | v :: vs => Some (fold_left pick vs v)
  end.
Definition mathMin : list Q → option Q := extremum Qmin.
Definition mathMax : list Q → option Q := extremum Qmax.

(** [values.indexOf(v)]: the first position holding a number equal to [v];
    [None] for -1. *)
Fixpoint indexOf (values : list Q) (v : Q) : option nat :=
  match values with
  | [] => None
  | w :: ws => if Qeq_bool w v then Some 0%nat else S <$> indexOf ws v
  end.

(** [pts[values.indexOf(extreme(...values))]] *)
Definition pointAtExtreme (extreme : list Q → option Q)
    (pts : list Point) (values : list Q) : option Point :=
  m ← extreme values; i ← indexOf values m; pts !! i.

(** The four entries are [tl; tr; br; bl]; an entry is [undefined] only when
    [pts] is empty. *)
Definition orderCorners (pts : list Point) : list (option Point) :=
  let sum := (λ p, x p + y p)%Q <$> pts in
  let diff := (λ p, y p - x p)%Q <$> pts in
  let tl := pointAtExtreme mathMin pts sum in
  let br := pointAtExtreme mathMax pts sum in
  let tr := pointAtExtreme mathMin pts diff in
  let bl := pointAtExtreme mathMax pts diff in
  [tl; tr; br; bl].

Definition rectanglesOverlap (a b : BBox) (threshold : Q) : bool :=
  let '(ax1, ay1, ax2, ay2) := a in
  let '(bx1, by1, bx2, by2) := b in
  let overlapX := Qmax 0 (Qmin ax2 bx2 - Qmax ax1 bx1) in
  let overlapY := Qmax 0 (Qmin ay2 by2 - Qmax ay1 by1) in
  let overlapArea := (overlapX * overlapY)%Q in
  let areaA := ((ax2 - ax1) * (ay2 - ay1))%Q in
  let areaB := ((bx2 - bx1) * (by2 - by1))%Q in
  let minArea := Qmin areaA areaB in
  Qgtb overlapArea (minArea * threshold).

(** [Math.min(...xs)] of an array known to hold four numbers. *)
Definition minOf (values : list Q) : Q := default 0%Q (mathMin values).
Definition maxOf (values : list Q) : Q := default 0%Q (mathMax values).

(** The body of the loop over the contours in [detectWithStrategy]:
    [Normal None] is a [continue], [Throws] a [TypeError] on reading a
    coordinate of an [undefined] corner.  [imgRows] and [imgCols] are those
    of the downscaled image. *)
Definition examineContour (imgRows imgCols : Z) (scale imgArea : Q) (c : Contour)
    : Completion (option CardDetection.t) :=
  if Qltb (area c) (imgArea * (5 # 1000)) then Normal None
  else if Qgtb (area c) (imgArea * (50 # 100)) then Normal None
  else
    let w := rectWidth c in
    let h := rectHeight c in
    let rectArea := (w * h)%Q in
    if Qle_bool rectArea 1 then Normal None
    else
      let fillRatio := (area c / rectArea)%Q in
      if Qltb fillRatio (60 # 100) then Normal None
      else
        let aspect := Qmax (h / Qmax 1 w) (w / Qmax 1 h) in
        if Qltb aspect (11 # 10) || Qgtb aspect (22 # 10) then Normal None
        else if Qltb (satStd c) 8 then Normal None
        else
          let corners :=
            (λ p, {| x := x p / scale; y := y p / scale |}) <$> rectPoints c in
          match mapM (λ p : option Point, p) (orderCorners corners) with
          | None => Throws
          | Some ordered =>
              let xs := x <$> ordered in
              let ys := y <$> ordered in
              let bbox := (minOf xs, minOf ys, maxOf xs, maxOf ys) in
              let '(b0, b1, b2, b3) := bbox in
              let imgW := (inject_Z imgCols / scale)%Q in
              let imgH := (inject_Z imgRows / scale)%Q in
              let bboxW := (b2 - b0)%Q in
              let bboxH := (b3 - b1)%Q in
              let visibleX := (Qmin b2 imgW - Qmax b0 0)%Q in
              let visibleY := (Qmin b3 imgH - Qmax b1 0)%Q in
              (* a quotient by zero is NaN or an infinity: only minus
                 infinity is below 0.85 *)
              let tooHidden :=
                if Qeq_bool (bboxW * bboxH) 0
                then Qltb (visibleX * visibleY) 0
                else Qltb ((visibleX * visibleY) / (bboxW * bboxH)) (85 # 100) in
              if tooHidden then Normal None
              else Normal (Some {| CardDetection.bbox := bbox;
                                   CardDetection.corners := ordered;
                                   CardDetection.confidence := fillRatio |})
          end.

Definition detectWithStrategy (cv : Engine) (imageData : ImageData)
    (imgRows imgCols : Z) (scale imgArea : Q) (params : StrategyParams)
    : Completion (list CardDetection.t) :=
  contours ← findContours cv imageData imgRows imgCols params;
  found ← mapM (examineContour imgRows imgCols scale imgArea) contours;
  mret (omap (λ d : option CardDetection.t, d) found).

Definition strategies : list StrategyParams :=
  [ {| sThresh := 60; vThresh := 140; cannyLow := 30; cannyHigh := 100; morphSize := 5 |};
    {| sThresh := 80; vThresh := 120; cannyLow := 40; cannyHigh := 120; morphSize := 7 |};
    {| sThresh := 100; vThresh := 100; cannyLow := 50; cannyHigh := 150; morphSize := 9 |} ].

(** The threshold the detector passes to [rectanglesOverlap]. *)
Definition dedupThreshold : Q := 4 # 10.

(** The inner loop of [detectCardsOpenCV]: a detection is pushed unless some
    detection already in [allCards] overlaps it. *)
Definition addDetections (allCards detections : list CardDetection.t)
    : list CardDetection.t :=
  fold_left
    (λ acc det,
       let isDuplicate :=
         existsb (λ existing,
                    rectanglesOverlap (CardDetection.bbox existing)
                                      (CardDetection.bbox det) dedupThreshold) acc in
       if isDuplicate then acc else (acc ++ [det])%list)
    detections allCards.

(** [for (const strategy of strategies)]: the detections of each strategy
    are merged into [allCards] in turn. *)
Fixpoint runStrategies (detect : StrategyParams → Completion (list CardDetection.t))
    (todo : list StrategyParams) (allCards : list CardDetection.t)
    : Completion (list CardDetection.t) :=
  match todo with
  | [] => Normal allCards
  | strategy :: rest =>
      detections ← detect strategy;
      runStrategies detect rest (addDetections allCards detections)
  end.

(** The comparator of the final sort: [comesAfter a b] when [compare(a, b)]
    is positive. *)
Definition centerX (d : CardDetection.t) : Q :=
  let '(x1, _, x2, _) := CardDetection.bbox d in (x1 + x2) / 2.
Definition centerY (d : CardDetection.t) : Q :=
  let '(_, y1, _, y2) := CardDetection.bbox d in (y1 + y2) / 2.
Definition rowOf (imageData : ImageData) (d : CardDetection.t) : Z :=
  let rowHeight := (inject_Z (height imageData) / 6)%Q in
  Qfloor (centerY d / rowHeight).
Definition comesAfter (imageData : ImageData) (a b : CardDetection.t) : bool :=
  let aRow := rowOf imageData a in
  let bRow := rowOf imageData b in
  if negb (aRow =? bRow)%Z then (0 <? aRow - bRow)%Z
  else Qgtb (centerX a - centerX b) 0.

(** [allCards.sort(compare)]: a stable sort. *)
Fixpoint insertSorted (imageData : ImageData) (d : CardDetection.t)
    (sorted : list CardDetection.t) : list CardDetection.t :=
  match sorted with
  | [] => [d]
  | e :: rest =>
      if comesAfter imageData e d then d :: e :: rest
      else e :: insertSorted imageData d rest
  end.
Definition sortCards (imageData : ImageData) (l : list CardDetection.t)
    : list CardDetection.t :=
  foldr (insertSorted imageData) [] (reverse l).

Definition maxWidth : Z := 1200.

(** [cv = None] is [typeof cv === 'undefined']. *)
Definition detectCardsOpenCV (cv : option Engine) (imageData : ImageData)
    : Completion (list CardDetection.t) :=
  match cv with
  | None => Normal []
  | Some cv =>
      let cols := width imageData in
      let rows := height imageData in
      let resized := (maxWidth <? cols)%Z in
      let scale := if resized then (inject_Z maxWidth / inject_Z cols)%Q else 1%Q in
      (* [Math.round(img.rows * scale)] *)
      let imgRows :=
        if resized then Qfloor (inject_Z rows * scale + (1 # 2)) else rows in
      let imgCols := if resized then maxWidth else cols in
      let imgArea := inject_Z (imgRows * imgCols) in
      allCards ←
        runStrategies
          (detectWithStrategy cv imageData imgRows imgCols scale imgArea)
          strategies [];
      mret (sortCards imageData allCards)
  end.

(** [Math.hypot(dx, dy)] is compared through its square, which orders the
    same way. *)
Definition sqDist (p q : Point) : Q :=
  ((x q - x p) * (x q - x p) + (y q - y p) * (y q - y p))%Q.

Definition warpCardToImageData (cv : option Engine) (imageData : ImageData)
    (corners : list Point) (outW outH : Z) : Completion (option ImageData) :=
  match cv with
  | None => Normal None
  | Some cv =>
      (* [let [tl, tr, br, bl] = corners]; reading [tr.x] of a missing
         corner throws *)
      match corners !! 0%nat, corners !! 1%nat, corners !! 2%nat, corners !! 3%nat with
      | Some tl, Some tr, Some br, Some bl =>
          let cardWidth2 := sqDist tl tr in
          let cardHeight2 := sqDist tl bl in
          let src :=
            if Qgtb cardWidth2 cardHeight2 then [bl; tl; tr; br] else [tl; tr; br; bl] in
          result ← warpPerspective cv imageData src outW outH;
          mret (Some result)
      | _, _, _, _ => Throws
      end
  end.

Definition isOpenCVLoaded (cv : option Engine) : bool :=
  match cv with
  | None => false
  | Some cv => hasMat cv
  end.

End Detector.

(** ** JavaScript numbers: rounding to a double

    The numbers of the program are rationals.  Where a result depends on
    the rounding of an operation, the operation is written with [Double]:
    the exact result, rounded to the nearest double. *)

Module Double.

(** The nearest integer, the even one of two that are as near. *)
Definition roundHalfEven (x : Q) : Z :=
  let f := Qfloor x in
  let r := (x - inject_Z f)%Q in
  if Qltb r (1 # 2) then f
  else if Qltb (1 # 2) r then (f + 1)%Z
  else if Z.even f then f else (f + 1)%Z.

(** For x > 0, the integer L with 2^L <= x < 2^(L+1). *)
Definition floorLog2 (x : Q) : Z :=
  let k := (Z.log2 (Qnum x) - Z.log2 (Zpos (Qden x)))%Z in
  if Qle_bool (2 ^ k) x then k else (k - 1)%Z.

(** The exponent of the last of the 53 bits of a double near x > 0; the
    subnormal numbers share the exponent -1074. *)
Definition lastBit (x : Q) : Z := Z.max (floorLog2 x - 52) (-1074).

Definition roundPositive (x : Q) : Q :=
  let e := lastBit x in (inject_Z (roundHalfEven (x / 2 ^ e)) * 2 ^ e)%Q.

(** The double nearest to x, ties to even, as every arithmetic operation
    of JavaScript rounds its exact result (below the overflow to an
    infinity). *)
Definition round (x : Q) : Q :=
  match Qnum x with
  | Z0 => 0%Q
  | Zpos _ => roundPositive x
  | Zneg _ => (- roundPositive (- x))%Q
  end.

Definition add (a b : Q) : Q := round (a + b).
Definition mul (a b : Q) : Q := round (a * b).

End Double.

(** ** hooks/useSetSolver.ts *)

Module Hook.
Import Solver Detector.

(** The object made by [new CardClassifier()]; what it answers comes from
    outside (see [ClassifySettles] below). *)
Inductive Classifier := CardClassifier.

(** The cells of one use of the hook: two [useState] values and the
    [.current] of the two refs. *)
Record HookState := {
  isModelLoaded : bool;
  results : option ProcessedResult.t;
  classifierRef : option Classifier;
  isProcessingRef : bool
}.

Definition setIsModelLoaded (v : bool) (st : HookState) : HookState :=
  {| isModelLoaded := v; results := results st;
     classifierRef := classifierRef st; isProcessingRef := isProcessingRef st |}.
Definition setResults (v : option ProcessedResult.t) (st : HookState) : HookState :=
  {| isModelLoaded := isModelLoaded st; results := v;
     classifierRef := classifierRef st; isProcessingRef := isProcessingRef st |}.
Definition setClassifierRef (v : option Classifier) (st : HookState) : HookState :=
  {| isModelLoaded := isModelLoaded st; results := results st;
     classifierRef := v; isProcessingRef := isProcessingRef st |}.
Definition setIsProcessingRef (v : bool) (st : HookState) : HookState :=
  {| isModelLoaded := isModelLoaded st; results := results st;
     classifierRef := classifierRef st; isProcessingRef := v |}.

(** [generateMockCards]; [random n] is the value of the n-th call of
    [Math.random()].  The literals [0.9] and [0.1] are the doubles nearest
    to them, and each product and sum is rounded; the box is computed on
    small integers, where doubles are exact. *)
Definition generateMockCards (random : nat → Q) : list Card :=
  let cardWidth := 150%Q in
  let cardHeight := 200%Q in
  let cols := 4%nat in
  let startX := 100%Q in
  let startY := 100%Q in
  let gap := 20%Q in
  (λ i : nat,
     let col := inject_Z (Z.of_nat (i mod cols)) in
     let row := inject_Z (Z.of_nat (i / cols)) in
     {| id := i;
        bbox := (startX + col * (cardWidth + gap),
                 startY + row * (cardHeight + gap),
                 startX + col * (cardWidth + gap) + cardWidth,
                 startY + row * (cardHeight + gap) + cardHeight)%Q;
        corners := None;
        properties :=
          {| shape :=
               tableAt [diamond; oval; squiggle]
                       (Qfloor (Double.mul (random (5 * i)%nat) 3));
             color :=
               tableAt [red; green; purple]
                       (Qfloor (Double.mul (random (5 * i + 1)%nat) 3));
             number :=
               tableAt [N1; N2; N3]
                       (Qfloor (Double.mul (random (5 * i + 2)%nat) 3));
             shading :=
               tableAt [solid; striped; empty]
                       (Qfloor (Double.mul (random (5 * i + 3)%nat) 3)) |};
        confidence :=
          Double.add (Double.round (9 # 10))
                     (Double.mul (random (5 * i + 4)%nat) (Double.round (1 # 10))) |})
  <$> seq 0 12.

(** A call of [processFrame] that waits at
    [await classifierRef.current!.classify(cardImageData)], with its local
    variables. *)
Record Awaiting := {
  imageData : ImageData;
  startTime : Q;
  detections : list CardDetection.t;
  idx : nat;
  detection : CardDetection.t;
  cardImageData : ImageData;
  cards : list Card
}.

(** How far a call got: it returned, or it waits. *)
Inductive Progress :=
| Returned (r : option ProcessedResult.t)
| Suspended (w : Awaiting).

(** Step 3 and the normal exit: [findAllSets], [setResults(result)],
    [return result], then the [finally] block.  [now1] and [now2] are the two
    readings of [performance.now()]. *)
Definition finish (st : HookState) (startTime : Q) (cards : list Card)
    (now1 now2 : Q) : HookState * Progress :=
  let sets := findAllSets cards in
  let result :=
    {| ProcessedResult.cards := cards; ProcessedResult.sets := sets;
       ProcessedResult.timestamp := now1;
       ProcessedResult.inferenceTime := now2 - startTime |} in
  (setIsProcessingRef false (setResults (Some result) st), Returned (Some result)).

(** The [catch] block, [return null], then the [finally] block. *)
Definition failed (st : HookState) : HookState * Progress :=
  (setIsProcessingRef false st, Returned None).

(** The [for] loop of step 2 from [idx] on, up to its first [await] or to
    the end of the call.  [remaining] is [detections] from [idx]. *)
Fixpoint classifyLoop (cv : option Engine) (st : HookState) (imageData : ImageData)
    (startTime : Q) (detections : list CardDetection.t) (idx : nat)
    (remaining : list CardDetection.t) (cards : list Card) (now1 now2 : Q)
    : HookState * Progress :=
  match remaining with
  | [] => finish st startTime cards now1 now2
  | detection :: rest =>
      match warpCardToImageData cv imageData (CardDetection.corners detection) 200 300 with
      | Throws => failed st
      | Normal None =>
          (* [if (!cardImageData) continue] *)
          classifyLoop cv st imageData startTime detections (S idx) rest cards now1 now2
      | Normal (Some cardImageData) =>
          match classifierRef st with
          | None => failed st
          | Some _ =>
              (st, Suspended {| imageData := imageData; startTime := startTime;
                                detections := detections; idx := idx;
                                detection := detection;
                                cardImageData := cardImageData; cards := cards |})
          end
      end
  end.

Section Frames.
(** [import.meta.env.VITE_MOCK_ML === 'true'] *)
Variable MOCK_MODE : bool.

(** A call of [processFrame], up to its first [await] or to its end.  [cv]
    is the global at the time of the call, [clock n] the n-th reading of
    [performance.now()], [random] as in [generateMockCards]. *)
Definition processFrame (cv : option Engine) (random clock : nat → Q)
    (st : HookState) (imageData : ImageData) : HookState * Progress :=
  if isProcessingRef st then (st, Returned None)
  else
    let st := setIsProcessingRef true st in
    let startTime := clock 0%nat in
    if MOCK_MODE || negb (bool_decide (is_Some (classifierRef st))) then
      finish st startTime (generateMockCards random) (clock 1%nat) (clock 2%nat)
    else if negb (isOpenCVLoaded cv) then
      finish st startTime (generateMockCards random) (clock 1%nat) (clock 2%nat)
    else
      match detectCardsOpenCV cv imageData with
      | Throws => failed st
      | Normal detections =>
          if (length detections =? 0)%nat then
            finish st startTime [] (clock 1%nat) (clock 2%nat)
          else
            classifyLoop cv st imageData startTime detections 0 detections []
                         (clock 1%nat) (clock 2%nat)
      end.

(** The call goes on when the awaited promise settles: [outcome] is the
    classification, or [Throws] when the promise is rejected.  [cv] is the
    global and [st] the cells at that time. *)
Definition processFrameResume (cv : option Engine) (clock : nat → Q)
    (st : HookState) (w : Awaiting) (outcome : Completion ClassificationResult.t)
    : HookState * Progress :=
  match outcome with
  | Throws => failed st
  | Normal classification =>
      match indicesToCard (ClassificationResult.shape classification)
                          (ClassificationResult.color classification)
                          (ClassificationResult.number classification)
                          (ClassificationResult.shading classification) with
      | Throws => failed st
      | Normal props =>
          let card :=
            {| id := idx w;
               bbox := CardDetection.bbox (detection w);
               corners := Some (CardDetection.corners (detection w));
               properties := props;
               confidence := CardDetection.confidence (detection w) |} in
          classifyLoop cv st (imageData w) (startTime w) (detections w)
                       (S (idx w)) (drop (S (idx w)) (detections w))
                       (cards w ++ [card])%list (clock 0%nat) (clock 1%nat)
      end
  end.

(** *** The page around the hook

    JavaScript runs one turn of its event loop at a time: between two awaits a call is not
    interleaved with anything.  The state of the page is the hook's cells,
    the global [cv], and the calls of [processFrame] that wait. *)
Record System := {
  hook : HookState;
  cv : option Engine;
  waiting : list Awaiting
}.

Inductive Event :=
(** the page calls [processFrame(imageData)] *)
| CallProcessFrame (imageData : ImageData) (random clock : nat → Q)
(** the promise awaited by the n-th waiting call settles *)
| ClassifySettles (n : nat) (outcome : Completion ClassificationResult.t) (clock : nat → Q)
(** [loadModels] up to its [await]: the classifier object is stored *)
| LoadModelsStarts
(** [loadModels] after its [await], when loading succeeded *)
| LoadModelsEnds
(** [clearResults()] *)
| CallClearResults
(** the script that defines the global [cv] runs, or the global is reset *)
| EngineChanges (cv' : option Engine).

Definition withProgress (s : System) (others : list Awaiting)
    (r : HookState * Progress) : System * option (option ProcessedResult.t) :=
  match r.2 with
  | Returned v => ({| hook := r.1; cv := cv s; waiting := others |}, Some v)
  | Suspended w => ({| hook := r.1; cv := cv s; waiting := (others ++ [w])%list |}, None)
  end.

(** One turn.  The second component is the value a call of [processFrame]
    returned in this turn, if one returned. *)
Definition step (s : System) (e : Event) : System * option (option ProcessedResult.t) :=
  match e with
  | CallProcessFrame imageData random clock =>
      withProgress s (waiting s) (processFrame (cv s) random clock (hook s) imageData)
  | ClassifySettles n outcome clock =>
      match waiting s !! n with
      | None => (s, None)
      | Some w =>
          withProgress s (delete n (waiting s))
                       (processFrameResume (cv s) clock (hook s) w outcome)
      end
  | LoadModelsStarts =>
      if MOCK_MODE
      then ({| hook := setIsModelLoaded true (hook s); cv := cv s; waiting := waiting s |}, None)
      else ({| hook := setClassifierRef (Some CardClassifier) (hook s);
               cv := cv s; waiting := waiting s |}, None)
  | LoadModelsEnds =>
      ({| hook := setIsModelLoaded true (hook s); cv := cv s; waiting := waiting s |}, None)
  | CallClearResults =>
      ({| hook := setResults None (hook s); cv := cv s; waiting := waiting s |}, None)
  | EngineChanges cv' =>
      ({| hook := hook s; cv := cv'; waiting := waiting s |}, None)
  end.

(** The hook as mounted: [useState(MOCK_MODE)], [useState(null)],
    [useRef(null)], [useRef(false)]. *)
Definition mounted (cv0 : option Engine) : System :=
  {| hook := {| isModelLoaded := MOCK_MODE; results := None;
                classifierRef := None; isProcessingRef := false |};
     cv := cv0; waiting := [] |}.

Inductive reachable : System → Prop :=
| reachable_mounted (cv0 : option Engine) : reachable (mounted cv0)
| reachable_step (s : System) (e : Event) :
    reachable s → reachable (step s e).1.

End Frames.

End Hook.

(** ** analysis/inference.ts *)

Module Classifier.
Import Solver.

(** The loop of [argmax] from position [i] on. *)
Fixpoint argmaxFrom (i : nat) (rest : list Q) (maxIdx : nat) (maxVal : Q) : nat :=
  match rest with
  | [] => maxIdx
  | v :: rest' =>
      if Qgtb v maxVal then argmaxFrom (S i) rest' i v
      else argmaxFrom (S i) rest' maxIdx maxVal
  end.

(** On an empty array the loop does not run and [maxIdx] stays 0. *)
Definition argmax (arr : list Q) : nat :=
  match arr with
  | [] => 0%nat
  | v0 :: rest => argmaxFrom 1 rest 0 v0
  end.

(** The four heads of the model's output; a head may be missing. *)
Record Outputs := {
  shapeHead : option (list Q);
  colorHead : option (list Q);
  numberHead : option (list Q);
  shadingHead : option (list Q)
}.

(** [outputs[name]?.data || new Float32Array(3)] *)
Definition logitsOf (head : option (list Q)) : list Q := default [0; 0; 0]%Q head.

(** The four indices of [postprocess]. *)
Definition postprocess (outputs : Outputs) : ClassificationResult.t :=
  let shapeLogits := logitsOf (shapeHead outputs) in
  let colorLogits := logitsOf (colorHead outputs) in
  let numberLogits := logitsOf (numberHead outputs) in
  let shadingLogits := logitsOf (shadingHead outputs) in
  {| ClassificationResult.shape := Z.of_nat (argmax shapeLogits);
     ClassificationResult.color := Z.of_nat (argmax colorLogits);
     ClassificationResult.number := Z.of_nat (argmax numberLogits);
     ClassificationResult.shading := Z.of_nat (argmax shadingLogits) |}.

(** [data[i]] stored into a [Uint8ClampedArray]: a read past the end is
    [undefined] and is stored as 0. *)
Definition byteAt (data : list Z) (i : nat) : Z := default 0%Z (data !! i).

(** [resize]: the destination is filled row by row, four bytes a pixel. *)
Definition resize (data : list Z) (srcWidth srcHeight dstWidth dstHeight : nat)
    : list Z :=
  let xRatio := (inject_Z (Z.of_nat srcWidth) / inject_Z (Z.of_nat dstWidth))%Q in
  let yRatio := (inject_Z (Z.of_nat srcHeight) / inject_Z (Z.of_nat dstHeight))%Q in
  y ← range 0 dstHeight;
  x ← range 0 dstWidth;
  let srcX := Z.to_nat (Qfloor (inject_Z (Z.of_nat x) * xRatio)) in
  let srcY := Z.to_nat (Qfloor (inject_Z (Z.of_nat y) * yRatio)) in
  let srcIdx := ((srcY * srcWidth + srcX) * 4)%nat in
  [ byteAt data srcIdx; byteAt data (srcIdx + 1); byteAt data (srcIdx + 2);
    byteAt data (srcIdx + 3) ].

End Classifier.

(** ** App.tsx and components/Canvas.tsx: which set is shown *)

Module App.

(** The index kept by [useState] in [App] and the one kept in the store;
    [null] is [None]. *)
Record Selection := {
  revealedSetIndex : option nat;
  highlightedSetIndex : option nat
}.

(** The effect that runs when [results] changes: both indices are set to
    [null].  The store starts with [null] as well. *)
Definition resetSelection : Selection :=
  {| revealedSetIndex := None; highlightedSetIndex := None |}.

(** [handleSetRotation], the handler of the rotation button, on the values
    of [results] and [revealedSetIndex] it was created with. *)
Definition handleSetRotation (results : option ProcessedResult.t) (sel : Selection)
    : Selection :=
  match results with
  | None => sel
  | Some r =>
      if (length (ProcessedResult.sets r) =? 0)%nat then sel
      else
        match revealedSetIndex sel with
        | None => {| revealedSetIndex := Some 0%nat; highlightedSetIndex := Some 0%nat |}
        | Some i =>
            let nextIndex := ((i + 1) mod length (ProcessedResult.sets r))%nat in
            {| revealedSetIndex := Some nextIndex; highlightedSetIndex := Some nextIndex |}
        end
  end.

End App.

Module Canvas.

(** [indices.includes(idx)] on the three indices of a set. *)
Definition includes (indices : nat * nat * nat) (idx : nat) : bool :=
  let '(i, j, k) := indices in (idx =? i)%nat || (idx =? j)%nat || (idx =? k)%nat.

(** [isHighlighted] for the card at position [idx], as a condition: the
    value is [undefined], hence false, when [results.sets] has nothing at
    [highlightedSetIndex]. *)
Definition isHighlighted (results : ProcessedResult.t) (highlightedSetIndex : option nat)
    (idx : nat) : bool :=
  match highlightedSetIndex with
  | None => false
  | Some h =>
      match ProcessedResult.sets results !! h with
      | None => false
      | Some set => includes (SetResult.indices set) idx
      end
  end.

End Canvas.

(** * Properties *)

(** ** The Set rule *)

Module SolverSpec.
Import Solver.

(** A card with the four given properties. *)
Definition plainCard (i : nat) (s : Shape) (c : Color) (n : Number) (h : Shading) : Card :=
  {| id := i; bbox := (0, 0, 0, 0)%Q; corners := None;
     properties := {| shape := Some s; color := Some c; number := Some n; shading := Some h |};
     confidence := 1%Q |}.

(** The rule as the game states it. *)
Definition allSame {T} (a b c : T) : Prop := a = b ∧ b = c.
Definition allDifferent {T} (a b c : T) : Prop := a ≠ b ∧ b ≠ c ∧ a ≠ c.
Definition ruleHolds {T} (a b c : T) : Prop := allSame a b c ∨ allDifferent a b c.

Lemma setSize_three {T} `{EqDecision T} (a b c : T) :
  (allSame a b c → setSize [a; b; c] = 1%nat) ∧
  (allDifferent a b c → setSize [a; b; c] = 3%nat) ∧
  (¬ ruleHolds a b c → setSize [a; b; c] = 2%nat).
Proof.
  unfold ruleHolds, allSame, allDifferent, setSize. simpl.
  repeat case_decide; set_unfold; simpl;
    repeat split; intros; destruct_and?; destruct_or?; subst;
    tauto || congruence || (exfalso; intuition congruence).
Qed.

Lemma isIdenticalOrDistinct_ruleHolds {T} `{EqDecision T} (a b c : T) :
  isIdenticalOrDistinct a b c = true ↔ ruleHolds a b c.
Proof.
  unfold isIdenticalOrDistinct.
  destruct (setSize_three a b c) as (H1 & H3 & H2).
  destruct (decide (a = b)) as [Hab|Hab], (decide (b = c)) as [Hbc|Hbc],
           (decide (a = c)) as [Hac|Hac];
    try (rewrite H1 by done; unfold ruleHolds, allSame; simpl; tauto);
    try (rewrite H3 by done; unfold ruleHolds, allDifferent; simpl; tauto);
    (rewrite H2; [simpl| ]; unfold ruleHolds, allSame, allDifferent; intuition congruence).
Qed.

(** [values] holds exactly [n] distinct values: some list without repeats
    has the same members and [n] entries. *)
Definition distinctValues {T} (values : list T) (n : nat) : Prop :=
  ∃ l : list T, NoDup l ∧ (∀ v, v ∈ l ↔ v ∈ values) ∧ length l = n.

Lemma setSize_distinctValues {T} `{EqDecision T} (values : list T) (n : nat) :
  setSize values = n ↔ distinctValues values n.
Proof.
  unfold setSize, distinctValues. split.
  - intros <-. exists (remove_dups values).
    split_and?; [apply NoDup_remove_dups|apply elem_of_remove_dups|done].
  - intros (l & Hnd & Hmem & <-).
    apply Permutation_length, NoDup_Permutation; [apply NoDup_remove_dups|done|].
    intros v. by rewrite elem_of_remove_dups, Hmem.
Qed.

(** C1.  Three cards form a valid Set exactly when, on each of the four
    properties taken on its own, the number of distinct values among the
    three cards is not 2, that is, the three values are all equal or pairwise
    different. *)
Theorem isValidSet_iff_rule (c1 c2 c3 : Card) :
  (isValidSet c1 c2 c3 = true ↔
     ¬ distinctValues [shape c1; shape c2; shape c3] 2 ∧
     ¬ distinctValues [color c1; color c2; color c3] 2 ∧
     ¬ distinctValues [number c1; number c2; number c3] 2 ∧
     ¬ distinctValues [shading c1; shading c2; shading c3] 2) ∧
  (isValidSet c1 c2 c3 = true ↔
     ruleHolds (shape c1) (shape c2) (shape c3) ∧
     ruleHolds (color c1) (color c2) (color c3) ∧
     ruleHolds (number c1) (number c2) (number c3) ∧
     ruleHolds (shading c1) (shading c2) (shading c3)).
Proof.
  split.
  - unfold isValidSet, isIdenticalOrDistinct.
    rewrite !andb_true_iff, !negb_true_iff, !Nat.eqb_neq.
    rewrite <- !setSize_distinctValues. tauto.
  - unfold isValidSet.
    rewrite !andb_true_iff, !isIdenticalOrDistinct_ruleHolds. tauto.
Qed.

(** The scenario of the rules: A, B, C differ in shape only; D differs from
    A and B in number, which B and A share. *)
Definition cardA : Card := plainCard 0 diamond red N1 solid.
Definition cardB : Card := plainCard 1 oval red N1 solid.
Definition cardC : Card := plainCard 2 squiggle red N1 solid.
Definition cardD : Card := plainCard 3 oval red N2 solid.

Example set_A_B_C : isValidSet cardA cardB cardC = true.
Proof. reflexivity. Qed.

Example no_set_A_B_D : isValidSet cardA cardB cardD = false.
Proof. reflexivity. Qed.

Example findAllSets_A_B_C_D :
  SetResult.indices <$> findAllSets [cardA; cardB; cardC; cardD] = [(0, 1, 2)]%nat.
Proof. reflexivity. Qed.

Example findAllSets_small :
  findAllSets [] = [] ∧ findAllSets [cardA] = [] ∧ findAllSets [cardA; cardB] = [].
Proof. split_and?; reflexivity. Qed.

(** Inside the loops of [findAllSets] the three cards exist. *)
Lemma bruteStep_in_range (cards : list Card) (i j k : nat) :
  i ∈ range 0 (length cards - 2) →
  j ∈ range (i + 1) (length cards - 1) →
  k ∈ range (j + 1) (length cards) →
  ∃ ci cj ck, cards !! i = Some ci ∧ cards !! j = Some cj ∧ cards !! k = Some ck.
Proof.
  unfold range. rewrite !elem_of_seq. intros Hi Hj Hk.
  destruct (lookup_lt_is_Some_2 cards i) as [ci Hci]; [lia|].
  destruct (lookup_lt_is_Some_2 cards j) as [cj Hcj]; [lia|].
  destruct (lookup_lt_is_Some_2 cards k) as [ck Hck]; [lia|].
  by exists ci, cj, ck.
Qed.

(** *** The required third value *)

Lemma getThirdValue_same {T} `{EqDecision T} (a : T) (allValues : list T) :
  getThirdValue (Some a) (Some a) allValues = Some a.
Proof. unfold getThirdValue. by rewrite decide_True. Qed.

Lemma getThirdValue_other {T} `{EqDecision T} (a b : T) (allValues : list T) :
  a ≠ b →
  getThirdValue (Some a) (Some b) allValues
  = List.find (λ v, bool_decide (v ≠ a) && bool_decide (v ≠ b)) allValues.
Proof.
  intros Hab. unfold getThirdValue. rewrite decide_False by congruence.
  induction allValues as [|v vs IH]; simpl; [done|].
  rewrite IH.
  repeat case_bool_decide; simpl; congruence.
Qed.

(** C5.  In a domain of three values, every pair (a, b) is completed to a
    triple obeying the Set rule by exactly one value c of the domain: c is a
    when a = b and the remaining value of the domain otherwise; and
    [getThirdValue] returns that c. *)
Theorem getThirdValue_unique_completion {T} `{EqDecision T}
    (domain : list T) (a b : T) :
  NoDup domain → length domain = 3%nat → a ∈ domain → b ∈ domain →
  ∃ c : T,
    c ∈ domain ∧
    isIdenticalOrDistinct a b c = true ∧
    (∀ c', c' ∈ domain → isIdenticalOrDistinct a b c' = true → c' = c) ∧
    (a = b → c = a) ∧
    (a ≠ b → c ≠ a ∧ c ≠ b) ∧
    getThirdValue (Some a) (Some b) domain = Some c.
Proof.
  intros Hnd Hlen Ha Hb.
  destruct domain as [|d1 [|d2 [|d3 [|? ?]]]]; try discriminate Hlen.
  apply NoDup_cons in Hnd as [Hd1 Hnd]. apply NoDup_cons in Hnd as [Hd2 _].
  assert (d1 ≠ d2 ∧ d1 ≠ d3 ∧ d2 ≠ d3) as (H12 & H13 & H23) by (set_unfold; tauto).
  destruct (decide (a = b)) as [<-|Hab].
  - exists a. rewrite getThirdValue_same.
    repeat split; try done.
    + apply isIdenticalOrDistinct_ruleHolds. by left.
    + intros c' _ Hc'. apply isIdenticalOrDistinct_ruleHolds in Hc'.
      destruct Hc' as [[_ ?]|[? _]]; congruence.
  - rewrite getThirdValue_other by done.
    assert (∀ c, c ∈ [d1; d2; d3] → c ≠ a → c ≠ b →
              (∀ c', c' ∈ [d1; d2; d3] → c' = a ∨ c' = b ∨ c' = c) →
              c ∈ [d1; d2; d3] ∧ isIdenticalOrDistinct a b c = true ∧
              (∀ c', c' ∈ [d1; d2; d3] → isIdenticalOrDistinct a b c' = true → c' = c) ∧
              (a = b → c = a) ∧ (a ≠ b → c ≠ a ∧ c ≠ b)) as Hthird.
    { intros c Hc Hca Hcb Hall. repeat split; try done.
      - apply isIdenticalOrDistinct_ruleHolds. right. repeat split; congruence.
      - intros c' Hc' Hr. apply isIdenticalOrDistinct_ruleHolds in Hr.
        destruct (Hall c' Hc') as [-> | [-> | ->]]; [| |done].
        + destruct Hr as [[? _]|(_ & _ & ?)]; congruence.
        + destruct Hr as [[? _]|(_ & ? & _)]; congruence. }
    set_unfold in Ha. set_unfold in Hb.
    destruct Ha as [Ha | [Ha | [Ha | []]]], Hb as [Hb | [Hb | [Hb | []]]];
      subst a b; try congruence;
      [exists d3 | exists d2 | exists d3 | exists d1 | exists d2 | exists d1];
      (split_and?; [apply Hthird; set_unfold; intuition congruence ..|]);
      simpl; repeat (case_bool_decide; simpl); congruence.
Qed.

Lemma getThirdValue_unique_completion_witness :
  ∃ c : Shape,
    c ∈ SHAPES ∧
    isIdenticalOrDistinct diamond oval c = true ∧
    (∀ c', c' ∈ SHAPES → isIdenticalOrDistinct diamond oval c' = true → c' = c) ∧
    (diamond = oval → c = diamond) ∧
    (diamond ≠ oval → c ≠ diamond ∧ c ≠ oval) ∧
    getThirdValue (Some diamond) (Some oval) SHAPES = Some c.
Proof.
  apply (getThirdValue_unique_completion SHAPES diamond oval).
  - apply (bool_decide_unpack _). vm_compute. exact I.
  - reflexivity.
  - apply (bool_decide_unpack _). vm_compute. exact I.
  - apply (bool_decide_unpack _). vm_compute. exact I.
Defined.

(** *** Index to property conversion *)

Definition inTable (idx : Z) : Prop := (0 ≤ idx < 3)%Z.

Lemma tableAt_in {T} (table : list T) (idx : Z) :
  length table = 3%nat → inTable idx →
  ∃ v, table !! Z.to_nat idx = Some v ∧ tableAt table idx = Some v.
Proof.
  intros Hlen [Hlo Hhi]. unfold tableAt.
  destruct (Z.ltb_spec idx 0) as [?|_]; [lia|].
  destruct (lookup_lt_is_Some_2 table (Z.to_nat idx)) as [v Hv]; [lia|].
  exists v. by rewrite Hv.
Qed.

Lemma tableAt_out {T} (table : list T) (idx : Z) :
  length table = 3%nat → ¬ inTable idx → tableAt table idx = None.
Proof.
  intros Hlen Hout. unfold tableAt, inTable in *.
  destruct (Z.ltb_spec idx 0) as [?|?]; [done|].
  apply lookup_ge_None_2. lia.
Qed.

(** C9, as the code has it.  [indicesToCard] looks each index up in its
    table: an index in [0,3) yields the table's value at that position; an
    index outside [0,3) is not checked, the call returns normally and the
    property of that index is [undefined]. *)
Theorem indicesToCard_lookup (shapeIdx colorIdx numberIdx shadingIdx : Z) :
  ∃ p : CardProperties,
    indicesToCard shapeIdx colorIdx numberIdx shadingIdx = Normal p ∧
    ((inTable shapeIdx ∧ ∃ v, SHAPES !! Z.to_nat shapeIdx = Some v ∧ shape p = Some v)
       ∨ (¬ inTable shapeIdx ∧ shape p = None)) ∧
    ((inTable colorIdx ∧ ∃ v, COLORS !! Z.to_nat colorIdx = Some v ∧ color p = Some v)
       ∨ (¬ inTable colorIdx ∧ color p = None)) ∧
    ((inTable numberIdx ∧ ∃ v, NUMBERS !! Z.to_nat numberIdx = Some v ∧ number p = Some v)
       ∨ (¬ inTable numberIdx ∧ number p = None)) ∧
    ((inTable shadingIdx ∧ ∃ v, SHADINGS !! Z.to_nat shadingIdx = Some v ∧ shading p = Some v)
       ∨ (¬ inTable shadingIdx ∧ shading p = None)).
Proof.
  eexists. split; [reflexivity|]. simpl.
  assert (∀ {T} (table : list T) idx, length table = 3%nat →
            (inTable idx ∧ ∃ v, table !! Z.to_nat idx = Some v ∧ tableAt table idx = Some v)
            ∨ (¬ inTable idx ∧ tableAt table idx = None)) as Hcase.
  { intros T table idx Hlen.
    destruct (decide (0 ≤ idx < 3)%Z) as [Hin|Hout].
    - left. split; [done|]. by apply tableAt_in.
    - right. split; [done|]. by apply tableAt_out. }
  split_and?; by apply Hcase.
Qed.

(** C9 as stated fails: an index outside [0,3) is not fatal. *)
Lemma indicesToCard_out_of_range_returns :
  indicesToCard 3 0 0 0
    = Normal {| shape := None; color := Some red; number := Some N1; shading := Some solid |}
  ∧ indicesToCard 0 (-1) 0 0
    = Normal {| shape := Some diamond; color := None; number := Some N1; shading := Some solid |}
  ∧ indicesToCard 3 0 0 0 ≠ Throws.
Proof. split_and?; [reflexivity | reflexivity | discriminate]. Qed.

(** *** The two finders on a list with a repeated card *)

(** A = (diamond, red, 1, solid), B = (oval, red, 1, solid),
    C = (squiggle, red, 1, solid), and C once more. *)
Definition repeatedCards : list Card :=
  [ plainCard 0 diamond red N1 solid; plainCard 1 oval red N1 solid;
    plainCard 2 squiggle red N1 solid; plainCard 3 squiggle red N1 solid ].

(** C2 on [repeatedCards]: brute force reports the triples (0,1,2) and
    (0,1,3); the optimized finder reports (0,1,3) only, since the map keeps
    one index per signature. *)
Theorem finders_differ_on_repeated_card :
  SetResult.indices <$> findAllSets repeatedCards = [(0, 1, 2); (0, 1, 3)]%nat ∧
  SetResult.indices <$> findAllSetsOptimized repeatedCards = [(0, 1, 3)]%nat.
Proof. split; vm_compute; reflexivity. Qed.

(** *** The two finders on cards that are all different *)

#[local] Instance CardProperties_eq_dec : EqDecision CardProperties.
Proof. solve_decision. Defined.

(** Every property holds a value of its domain. *)
Definition wellFormed (c : CardProperties) : Prop :=
  is_Some (shape c) ∧ is_Some (color c) ∧ is_Some (number c) ∧ is_Some (shading c).

Definition withUndefined {T} (domain : list T) : list (option T) :=
  None :: (Some <$> domain).

(** All the property records there are. *)
Definition allProperties : list CardProperties :=
  s ← withUndefined SHAPES; c ← withUndefined COLORS;
  n ← withUndefined NUMBERS; h ← withUndefined SHADINGS;
  [ {| shape := s; color := c; number := n; shading := h |} ].

Lemma allProperties_complete (p : CardProperties) : p ∈ allProperties.
Proof.
  destruct p as [[[]|] [[]|] [[]|] [[]|]];
    apply (bool_decide_unpack _); vm_compute; exact I.
Qed.

Lemma signature_NoDup : NoDup (signature <$> allProperties).
Proof. apply (bool_decide_unpack _). vm_compute. exact I. Qed.

Lemma NoDup_fmap_inj {A B} (f : A → B) (l : list A) (a b : A) :
  NoDup (f <$> l) → a ∈ l → b ∈ l → f a = f b → a = b.
Proof.
  induction l as [|c l IH]; intros Hnd Ha Hb Hab; [by apply elem_of_nil in Ha|].
  rewrite fmap_cons in Hnd. apply NoDup_cons in Hnd as [Hc Hnd].
  apply elem_of_cons in Ha as [->|Ha]; apply elem_of_cons in Hb as [->|Hb].
  - done.
  - exfalso. apply Hc. rewrite Hab. by apply list_elem_of_fmap_2.
  - exfalso. apply Hc. rewrite <- Hab. by apply list_elem_of_fmap_2.
  - by apply IH.
Qed.

(** Two property records with the same signature are the same. *)
Lemma signature_inj (p q : CardProperties) : signature p = signature q → p = q.
Proof.
  apply (NoDup_fmap_inj signature allProperties);
    auto using signature_NoDup, allProperties_complete.
Qed.

Lemma buildCardMap_snoc (cards : list Card) (c : Card) :
  buildCardMap (cards ++ [c]) = <[signature c := length cards]> (buildCardMap cards).
Proof.
  unfold buildCardMap. rewrite imap_app, fold_left_app. simpl.
  by rewrite Nat.add_0_r.
Qed.

(** When the signatures are all different, the map sends a signature to the
    position of the card that has it. *)
Lemma buildCardMap_lookup (cards : list Card) (key : string) (k : nat) :
  NoDup (signature <$> (properties <$> cards)) →
  buildCardMap cards !! key = Some k
  ↔ ∃ c : Card, cards !! k = Some c ∧ signature c = key.
Proof.
  revert k. induction cards as [|c cards IH] using rev_ind; intros k Hnd.
  { unfold buildCardMap. simpl. rewrite lookup_empty. split; [done|].
    intros (c & Hc & _). by rewrite lookup_nil in Hc. }
  rewrite !fmap_app in Hnd. simpl in Hnd.
  apply NoDup_app in Hnd as (Hnd & Hfresh & _).
  assert (∀ (k' : nat) (c' : Card), cards !! k' = Some c' → signature c' ≠ signature c)
    as Hother.
  { intros k' c' Hk' Heq. apply (Hfresh (signature c')).
    - apply list_elem_of_fmap_2, list_elem_of_fmap_2. by eapply list_elem_of_lookup_2.
    - rewrite Heq. apply list_elem_of_here. }
  rewrite buildCardMap_snoc.
  destruct (decide (signature c = key)) as [<-|Hne].
  - rewrite lookup_insert_eq. split.
    + intros [= <-]. exists c. by rewrite list_lookup_middle.
    + intros (c' & Hc' & Heq).
      destruct (decide (k < length cards)%nat) as [Hlt|Hge].
      * rewrite lookup_app_l in Hc' by done. by destruct (Hother k c' Hc').
      * apply lookup_lt_Some in Hc' as Hk. rewrite length_app in Hk. simpl in Hk.
        f_equal. lia.
  - rewrite lookup_insert_ne by done. rewrite IH by done. split.
    + intros (c' & Hc' & Heq). exists c'. split; [|done].
      by apply lookup_app_l_Some.
    + intros (c' & Hc' & Heq). exists c'. split; [|done].
      apply lookup_app_Some in Hc' as [Hc'|[Hlen Hc']]; [done|].
      apply list_lookup_singleton_Some in Hc' as [_ <-]. done.
Qed.

Lemma shape_third (a b c : Shape) :
  isIdenticalOrDistinct (Some a) (Some b) (Some c) = true
  ↔ Some c = getThirdValue (Some a) (Some b) SHAPES.
Proof. destruct a, b, c; vm_compute; split; congruence. Qed.

Lemma color_third (a b c : Color) :
  isIdenticalOrDistinct (Some a) (Some b) (Some c) = true
  ↔ Some c = getThirdValue (Some a) (Some b) COLORS.
Proof. destruct a, b, c; vm_compute; split; congruence. Qed.

Lemma number_third (a b c : Number) :
  isIdenticalOrDistinct (Some a) (Some b) (Some c) = true
  ↔ Some c = getThirdValue (Some a) (Some b) NUMBERS.
Proof. destruct a, b, c; vm_compute; split; congruence. Qed.

Lemma shading_third (a b c : Shading) :
  isIdenticalOrDistinct (Some a) (Some b) (Some c) = true
  ↔ Some c = getThirdValue (Some a) (Some b) SHADINGS.
Proof. destruct a, b, c; vm_compute; split; congruence. Qed.

(** The third card of a Set is the required one. *)
Lemma isValidSet_required (c1 c2 c3 : Card) :
  wellFormed c1 → wellFormed c2 → wellFormed c3 →
  isValidSet c1 c2 c3 = true ↔ properties c3 = computeRequiredThirdCard c1 c2.
Proof.
  destruct c1 as [? ? ? [s1 o1 n1 h1] ?], c2 as [? ? ? [s2 o2 n2 h2] ?],
    c3 as [? ? ? [s3 o3 n3 h3] ?].
  unfold wellFormed, isValidSet, computeRequiredThirdCard. simpl.
  intros ([a1 ->] & [b1 ->] & [d1 ->] & [e1 ->]) ([a2 ->] & [b2 ->] & [d2 ->] & [e2 ->])
    ([a3 ->] & [b3 ->] & [d3 ->] & [e3 ->]).
  rewrite !andb_true_iff, shape_third, color_third, number_third, shading_third.
  split.
  - intros (((-> & ->) & ->) & ->). done.
  - intros [= -> -> -> ->]. done.
Qed.

(** Loops over ranges. *)
Lemma bind_ext_in {A B} (f g : A → list B) (l : list A) :
  (∀ a, a ∈ l → f a = g a) → l ≫= f = l ≫= g.
Proof.
  induction l as [|a l IH]; intros Hfg; [done|].
  rewrite !bind_cons, Hfg, IH; [done| |apply list_elem_of_here].
  intros b Hb. by apply Hfg, list_elem_of_further.
Qed.

Lemma bind_all_nil {A B} (f : A → list B) (l : list A) :
  (∀ a, a ∈ l → f a = []) → l ≫= f = [].
Proof.
  induction l as [|a l IH]; intros Hf; [done|].
  rewrite bind_cons, Hf, IH; [done| |apply list_elem_of_here].
  intros b Hb. by apply Hf, list_elem_of_further.
Qed.

Lemma bind_only {B} (l : list nat) (k0 : nat) (v : list B) :
  NoDup l →
  (l ≫= λ k, if decide (k = k0) then v else []) = if decide (k0 ∈ l) then v else [].
Proof.
  induction l as [|a l IH]; intros Hnd; [done|].
  apply NoDup_cons in Hnd as [Ha Hnd]. rewrite bind_cons, IH by done.
  destruct (decide (a = k0)) as [->|Hne].
  - rewrite (decide_False (P := k0 ∈ l)) by done.
    rewrite decide_True by apply list_elem_of_here. by rewrite app_nil_r.
  - simpl. destruct (decide (k0 ∈ l)) as [Hin|Hout].
    + rewrite decide_True; [done|by apply list_elem_of_further].
    + rewrite decide_False; [done|].
      intros [?|?]%elem_of_cons; congruence.
Qed.

Lemma elem_of_range (lo hi k : nat) : k ∈ range lo hi ↔ (lo ≤ k < hi)%nat.
Proof. unfold range. rewrite elem_of_seq. lia. Qed.

Lemma range_empty (lo hi : nat) : (hi ≤ lo)%nat → range lo hi = [].
Proof. intros Hle. unfold range. by replace (hi - lo)%nat with 0%nat by lia. Qed.

(** A last round that adds nothing can be left out. *)
Lemma bind_range_extend {B} (body : nat → list B) (lo hi : nat) :
  body hi = [] → range lo (S hi) ≫= body = range lo hi ≫= body.
Proof.
  intros Hlast. destruct (decide (lo ≤ hi)%nat) as [Hle|Hgt].
  - unfold range. replace (S hi - lo)%nat with (S (hi - lo)) by lia.
    rewrite seq_S, bind_app. replace (lo + (hi - lo))%nat with hi by lia.
    rewrite (bind_cons body hi), Hlast. simpl. by rewrite app_nil_r.
  - by rewrite !range_empty by lia.
Qed.

Lemma optimizedStep_brute (cards : list Card) (i j : nat) :
  Forall (λ c : Card, wellFormed c) cards →
  NoDup (signature <$> (properties <$> cards)) →
  (i < length cards)%nat → (j < length cards)%nat →
  optimizedStep cards (buildCardMap cards) i j
  = range (j + 1) (length cards) ≫= bruteStep cards i j.
Proof.
  intros Hwf Hnd Hi Hj. rewrite Forall_lookup in Hwf.
  destruct (lookup_lt_is_Some_2 cards i Hi) as [ci Hci].
  destruct (lookup_lt_is_Some_2 cards j Hj) as [cj Hcj].
  unfold optimizedStep. rewrite Hci, Hcj.
  assert (∀ (k : nat) (ck : Card), cards !! k = Some ck →
            isValidSet ci cj ck = true
            ↔ buildCardMap cards !! signature (computeRequiredThirdCard ci cj) = Some k)
    as Hvalid.
  { intros k ck Hck. rewrite isValidSet_required by eauto.
    rewrite buildCardMap_lookup by done. split.
    - intros Heq. exists ck. by rewrite Heq.
    - intros (c' & Hc' & Hsig). rewrite Hck in Hc'. injection Hc' as <-.
      by apply signature_inj. }
  destruct (buildCardMap cards !! _) as [k0|] eqn:Hmap.
  - destruct (proj1 (buildCardMap_lookup cards _ k0 Hnd) Hmap) as (ck0 & Hck0 & _).
    rewrite Hck0.
    rewrite (bind_ext_in _ (λ k, if decide (k = k0)
                                 then [ {| SetResult.cards := (ci, cj, ck0);
                                           SetResult.indices := (i, j, k0) |} ]
                                 else [])).
    + rewrite bind_only by apply NoDup_seq.
      destruct (Nat.ltb_spec j k0) as [Hlt|Hge].
      * rewrite decide_True; [done|]. apply elem_of_range.
        apply lookup_lt_Some in Hck0. lia.
      * rewrite decide_False; [done|]. rewrite elem_of_range. lia.
    + intros k Hk. apply elem_of_range in Hk.
      destruct (lookup_lt_is_Some_2 cards k) as [ck Hck]; [lia|].
      unfold bruteStep. rewrite Hci, Hcj, Hck.
      destruct (decide (k = k0)) as [->|Hne].
      * rewrite Hck0 in Hck. injection Hck as <-.
        by rewrite (proj2 (Hvalid k0 ck0 Hck0)).
      * destruct (isValidSet ci cj ck) eqn:Hset; [|done].
        apply (Hvalid k ck Hck) in Hset. congruence.
  - symmetry. apply bind_all_nil. intros k Hk. apply elem_of_range in Hk.
    destruct (lookup_lt_is_Some_2 cards k) as [ck Hck]; [lia|].
    unfold bruteStep. rewrite Hci, Hcj, Hck.
    destruct (isValidSet ci cj ck) eqn:Hset; [|done].
    apply (Hvalid k ck Hck) in Hset. congruence.
Qed.

(** On cards with values of the domains and no two cards alike, the
    optimized finder returns the list the brute-force finder returns, in the
    same order. *)
Theorem finders_agree_without_repeats (cards : list Card) :
  Forall (λ c : Card, wellFormed c) cards →
  NoDup (signature <$> (properties <$> cards)) →
  findAllSetsOptimized cards = findAllSets cards.
Proof.
  intros Hwf Hnd. unfold findAllSetsOptimized, findAllSets.
  destruct (length cards) as [|[|m]] eqn:Hlen; [done|done|].
  replace (S (S m) - 1)%nat with (S m) by lia.
  replace (S (S m) - 2)%nat with m by lia.
  transitivity
    (range 0 (S m) ≫= λ i, range (i + 1) (S (S m)) ≫= λ j,
       range (j + 1) (S (S m)) ≫= bruteStep cards i j).
  { apply bind_ext_in. intros i Hi. apply elem_of_range in Hi.
    apply bind_ext_in. intros j Hj. apply elem_of_range in Hj.
    rewrite <- Hlen. apply optimizedStep_brute; try done; lia. }
  rewrite bind_range_extend.
  - apply bind_ext_in. intros i Hi.
    apply bind_range_extend. by rewrite range_empty by lia.
  - apply bind_all_nil. intros j Hj. apply elem_of_range in Hj.
    by rewrite range_empty by lia.
Qed.

Lemma finders_agree_without_repeats_witness :
  Forall (λ c : Card, wellFormed c) (take 3 repeatedCards) ∧
  NoDup (signature <$> (properties <$> take 3 repeatedCards)) ∧
  findAllSetsOptimized (take 3 repeatedCards) = findAllSets (take 3 repeatedCards).
Proof.
  assert (Forall (λ c : Card, wellFormed c) (take 3 repeatedCards)) as Hwf.
  { repeat constructor; by eexists. }
  assert (NoDup (signature <$> (properties <$> take 3 repeatedCards))) as Hnd.
  { apply (bool_decide_unpack _). vm_compute. exact I. }
  split; [exact Hwf|]. split; [exact Hnd|].
  exact (finders_agree_without_repeats (take 3 repeatedCards) Hwf Hnd).
Defined.

(** *** What [findAllSets] returns *)

Lemma findAllSets_elem (cards : list Card) (r : SetResult.t) :
  r ∈ findAllSets cards
  ↔ ∃ i j k, i ∈ range 0 (length cards - 2) ∧ j ∈ range (i + 1) (length cards - 1) ∧
             k ∈ range (j + 1) (length cards) ∧ r ∈ bruteStep cards i j k.
Proof.
  unfold findAllSets. rewrite list_elem_of_bind. split.
  - intros (i & Hr & Hi). apply list_elem_of_bind in Hr as (j & Hr & Hj).
    apply list_elem_of_bind in Hr as (k & Hr & Hk). by exists i, j, k.
  - intros (i & j & k & Hi & Hj & Hk & Hr). exists i. split; [|done].
    apply list_elem_of_bind. exists j. split; [|done].
    apply list_elem_of_bind. by exists k.
Qed.

Lemma bruteStep_elem (cards : list Card) (i j k : nat) (r : SetResult.t) :
  r ∈ bruteStep cards i j k
  ↔ ∃ ci cj ck, cards !! i = Some ci ∧ cards !! j = Some cj ∧ cards !! k = Some ck ∧
                isValidSet ci cj ck = true ∧
                r = {| SetResult.cards := (ci, cj, ck); SetResult.indices := (i, j, k) |}.
Proof.
  unfold bruteStep. split.
  - destruct (cards !! i) as [ci|], (cards !! j) as [cj|], (cards !! k) as [ck|];
      try (intros Hr; by apply elem_of_nil in Hr).
    destruct (isValidSet ci cj ck) eqn:Hset; [|intros Hr; by apply elem_of_nil in Hr].
    intros Hr. apply list_elem_of_singleton in Hr. by exists ci, cj, ck.
  - intros (ci & cj & ck & -> & -> & -> & -> & ->). apply list_elem_of_here.
Qed.

(** A valid triple at increasing positions is reported. *)
Lemma findAllSets_intro (cards : list Card) (i j k : nat) (ci cj ck : Card) :
  (i < j)%nat → (j < k)%nat →
  cards !! i = Some ci → cards !! j = Some cj → cards !! k = Some ck →
  isValidSet ci cj ck = true →
  {| SetResult.cards := (ci, cj, ck); SetResult.indices := (i, j, k) |} ∈ findAllSets cards.
Proof.
  intros Hij Hjk Hi Hj Hk Hset. apply findAllSets_elem. exists i, j, k.
  apply lookup_lt_Some in Hk as Hlen.
  rewrite !elem_of_range. split_and?; try lia.
  apply bruteStep_elem. by exists ci, cj, ck.
Qed.

(** [findAllSets] reports exactly the valid triples at increasing positions:
    a result is in the list if and only if its indices i < j < k are
    positions of the list, its cards are the cards there, and the three
    cards form a valid Set. *)
Theorem findAllSets_exactly_the_sets (cards : list Card) (r : SetResult.t) :
  r ∈ findAllSets cards
  ↔ ∃ i j k ci cj ck,
      (i < j)%nat ∧ (j < k)%nat ∧
      cards !! i = Some ci ∧ cards !! j = Some cj ∧ cards !! k = Some ck ∧
      isValidSet ci cj ck = true ∧
      r = {| SetResult.cards := (ci, cj, ck); SetResult.indices := (i, j, k) |}.
Proof.
  split.
  - intros Hr. apply findAllSets_elem in Hr as (i & j & k & Hi & Hj & Hk & Hr).
    apply bruteStep_elem in Hr as (ci & cj & ck & Hci & Hcj & Hck & Hset & ->).
    apply elem_of_range in Hj, Hk. exists i, j, k, ci, cj, ck.
    split_and?; try done; lia.
  - intros (i & j & k & ci & cj & ck & Hij & Hjk & Hi & Hj & Hk & Hset & ->).
    by apply findAllSets_intro.
Qed.

Lemma bruteStep_indices (cards : list Card) (i j k : nat) (r : SetResult.t) :
  r ∈ bruteStep cards i j k → SetResult.indices r = (i, j, k).
Proof. intros Hr. by apply bruteStep_elem in Hr as (? & ? & ? & _ & _ & _ & _ & ->). Qed.

Lemma bruteStep_NoDup (cards : list Card) (i j k : nat) : NoDup (bruteStep cards i j k).
Proof.
  unfold bruteStep.
  destruct (cards !! i), (cards !! j), (cards !! k); try apply NoDup_nil_2.
  destruct (isValidSet _ _ _); [apply NoDup_singleton|apply NoDup_nil_2].
Qed.

(** No triple is reported twice: the index triples of the results are all
    different. *)
Theorem findAllSets_reports_once (cards : list Card) :
  NoDup (SetResult.indices <$> findAllSets cards).
Proof.
  assert (∀ lo hi, NoDup (range lo hi)) as Hrange by (intros; apply NoDup_seq).
  apply NoDup_fmap_2_strong.
  - intros r1 r2 H1 H2 Heq.
    apply findAllSets_elem in H1 as (i1 & j1 & k1 & _ & _ & _ & H1).
    apply findAllSets_elem in H2 as (i2 & j2 & k2 & _ & _ & _ & H2).
    apply bruteStep_elem in H1 as (a1 & b1 & c1 & Ha1 & Hb1 & Hc1 & _ & ->).
    apply bruteStep_elem in H2 as (a2 & b2 & c2 & Ha2 & Hb2 & Hc2 & _ & ->).
    simpl in Heq. injection Heq as -> -> ->. congruence.
  - unfold findAllSets. apply NoDup_bind; [| |apply Hrange].
    + intros i1 i2 r _ _ H1 H2.
      apply list_elem_of_bind in H1 as (j1 & H1 & _), H2 as (j2 & H2 & _).
      apply list_elem_of_bind in H1 as (k1 & H1 & _), H2 as (k2 & H2 & _).
      apply bruteStep_indices in H1, H2. congruence.
    + intros i _. apply NoDup_bind; [| |apply Hrange].
      * intros j1 j2 r _ _ H1 H2.
        apply list_elem_of_bind in H1 as (k1 & H1 & _), H2 as (k2 & H2 & _).
        apply bruteStep_indices in H1, H2. congruence.
      * intros j _. apply NoDup_bind; [| |apply Hrange].
        -- intros k1 k2 r _ _ H1 H2. apply bruteStep_indices in H1, H2. congruence.
        -- intros k _. apply bruteStep_NoDup.
Qed.

(** *** What [findAllSetsOptimized] returns *)

Lemma shape_required (a b : option Shape) :
  isIdenticalOrDistinct a b (getThirdValue a b SHAPES) = true.
Proof. destruct a as [[]|], b as [[]|]; reflexivity. Qed.

Lemma color_required (a b : option Color) :
  isIdenticalOrDistinct a b (getThirdValue a b COLORS) = true.
Proof. destruct a as [[]|], b as [[]|]; reflexivity. Qed.

Lemma number_required (a b : option Number) :
  isIdenticalOrDistinct a b (getThirdValue a b NUMBERS) = true.
Proof. destruct a as [[]|], b as [[]|]; reflexivity. Qed.

Lemma shading_required (a b : option Shading) :
  isIdenticalOrDistinct a b (getThirdValue a b SHADINGS) = true.
Proof. destruct a as [[]|], b as [[]|]; reflexivity. Qed.

(** A card with the required properties completes a Set, whatever the two
    cards are. *)
Lemma required_completes (c1 c2 c3 : Card) :
  properties c3 = computeRequiredThirdCard c1 c2 → isValidSet c1 c2 c3 = true.
Proof.
  intros Heq. unfold isValidSet. rewrite Heq. simpl.
  by rewrite shape_required, color_required, number_required, shading_required.
Qed.

(** Whatever the list, the map sends a signature to a position that holds a
    card with that signature. *)
Lemma buildCardMap_lookup_Some (cards : list Card) (key : string) (k : nat) :
  buildCardMap cards !! key = Some k →
  ∃ c : Card, cards !! k = Some c ∧ signature c = key.
Proof.
  revert k. induction cards as [|c cards IH] using rev_ind; intros k.
  { unfold buildCardMap. simpl. by rewrite lookup_empty. }
  rewrite buildCardMap_snoc.
  destruct (decide (signature c = key)) as [<-|Hne].
  - rewrite lookup_insert_eq. intros [= <-]. exists c. by rewrite list_lookup_middle.
  - rewrite lookup_insert_ne by done. intros Hk.
    destruct (IH k Hk) as (c' & Hc' & Heq). exists c'. split; [|done].
    by apply lookup_app_l_Some.
Qed.

Lemma optimizedStep_elem (cards : list Card) (i j : nat) (r : SetResult.t) :
  r ∈ optimizedStep cards (buildCardMap cards) i j →
  ∃ k ci cj ck,
    cards !! i = Some ci ∧ cards !! j = Some cj ∧ cards !! k = Some ck ∧
    (j < k)%nat ∧
    buildCardMap cards !! signature (computeRequiredThirdCard ci cj) = Some k ∧
    r = {| SetResult.cards := (ci, cj, ck); SetResult.indices := (i, j, k) |}.
Proof.
  unfold optimizedStep.
  destruct (cards !! i) as [ci|], (cards !! j) as [cj|];
    try (intros Hr; by apply elem_of_nil in Hr).
  destruct (buildCardMap cards !! _) as [k|] eqn:Hmap;
    [|intros Hr; by apply elem_of_nil in Hr].
  destruct (Nat.ltb_spec j k) as [Hjk|_]; [|intros Hr; by apply elem_of_nil in Hr].
  destruct (cards !! k) as [ck|] eqn:Hck; [|intros Hr; by apply elem_of_nil in Hr].
  intros Hr. apply list_elem_of_singleton in Hr. by exists k, ci, cj, ck.
Qed.

Lemma findAllSetsOptimized_elem (cards : list Card) (r : SetResult.t) :
  r ∈ findAllSetsOptimized cards →
  ∃ i j, (i < j)%nat ∧ r ∈ optimizedStep cards (buildCardMap cards) i j.
Proof.
  unfold findAllSetsOptimized. intros Hr.
  apply list_elem_of_bind in Hr as (i & Hr & Hi).
  apply list_elem_of_bind in Hr as (j & Hr & Hj).
  apply elem_of_range in Hj. exists i, j. split; [lia|done].
Qed.

(** Every triple the optimized finder reports is one the brute-force finder
    reports: valid, at increasing positions, with the cards found there.
    This holds for every list, with or without repeated cards. *)
Theorem findAllSetsOptimized_sound (cards : list Card) (r : SetResult.t) :
  r ∈ findAllSetsOptimized cards → r ∈ findAllSets cards.
Proof.
  intros Hr. apply findAllSetsOptimized_elem in Hr as (i & j & Hij & Hr).
  apply optimizedStep_elem in Hr as (k & ci & cj & ck & Hi & Hj & Hk & Hjk & Hmap & ->).
  apply findAllSets_intro; try done.
  apply required_completes.
  apply buildCardMap_lookup_Some in Hmap as (c' & Hc' & Hsig).
  rewrite Hk in Hc'. injection Hc' as <-. by apply signature_inj.
Qed.

(** For a pair of positions (i, j) the optimized finder reports one triple
    at most: two results with the same first and second index are the same
    result. *)
Theorem findAllSetsOptimized_one_per_pair (cards : list Card) (r1 r2 : SetResult.t) :
  r1 ∈ findAllSetsOptimized cards → r2 ∈ findAllSetsOptimized cards →
  (SetResult.indices r1).1 = (SetResult.indices r2).1 →
  r1 = r2.
Proof.
  intros H1 H2 Heq.
  apply findAllSetsOptimized_elem in H1 as (i1 & j1 & _ & H1).
  apply findAllSetsOptimized_elem in H2 as (i2 & j2 & _ & H2).
  apply optimizedStep_elem in H1 as (k1 & a1 & b1 & c1 & Ha1 & Hb1 & Hc1 & _ & Hm1 & ->).
  apply optimizedStep_elem in H2 as (k2 & a2 & b2 & c2 & Ha2 & Hb2 & Hc2 & _ & Hm2 & ->).
  simpl in Heq. injection Heq as -> ->.
  rewrite Ha1 in Ha2. injection Ha2 as <-. rewrite Hb1 in Hb2. injection Hb2 as <-.
  rewrite Hm1 in Hm2. injection Hm2 as <-. rewrite Hc1 in Hc2. by injection Hc2 as <-.
Qed.

Lemma findAllSetsOptimized_one_per_pair_witness :
  ∃ r, r ∈ findAllSetsOptimized repeatedCards ∧ r ∈ findAllSetsOptimized repeatedCards ∧
       (SetResult.indices r).1 = (SetResult.indices r).1 ∧ r = r.
Proof.
  assert (∃ r, r ∈ findAllSetsOptimized repeatedCards) as [r Hr].
  { eexists. vm_compute. apply list_elem_of_here. }
  exists r. split; [exact Hr|]. split; [exact Hr|]. split; [reflexivity|].
  exact (findAllSetsOptimized_one_per_pair repeatedCards r r Hr Hr eq_refl).
Defined.

Lemma findAllSetsOptimized_sound_witness :
  ∃ r, r ∈ findAllSetsOptimized repeatedCards ∧ r ∈ findAllSets repeatedCards.
Proof.
  assert (∃ r, r ∈ findAllSetsOptimized repeatedCards) as [r Hr].
  { eexists. vm_compute. apply list_elem_of_here. }
  exists r. split; [exact Hr|].
  exact (findAllSetsOptimized_sound repeatedCards r Hr).
Defined.

(** *** The explainer *)

Lemma analyze_all_same {T} `{EqDecision T} (a b c : T) :
  analyze [a; b; c] = all_same ↔ allSame a b c.
Proof.
  unfold analyze. destruct (setSize_three a b c) as (H1 & H3 & H2).
  destruct (decide (a = b)) as [Hab|Hab], (decide (b = c)) as [Hbc|Hbc].
  - rewrite H1 by done. simpl. unfold allSame. tauto.
  - assert (setSize [a; b; c] ≠ 1%nat) as Hne.
    { destruct (decide (a = c)).
      - congruence.
      - rewrite H2; [done|]. unfold ruleHolds, allSame, allDifferent. tauto. }
    apply Nat.eqb_neq in Hne. rewrite Hne. unfold allSame. split; [done|tauto].
  - assert (setSize [a; b; c] ≠ 1%nat) as Hne.
    { rewrite H2; [done|]. unfold ruleHolds, allSame, allDifferent. intuition congruence. }
    apply Nat.eqb_neq in Hne. rewrite Hne. unfold allSame. split; [done|tauto].
  - assert (setSize [a; b; c] ≠ 1%nat) as Hne.
    { destruct (decide (a = c)).
      - rewrite H2; [done|]. unfold ruleHolds, allSame, allDifferent. intuition congruence.
      - rewrite H3; [done|]. unfold allDifferent. tauto. }
    apply Nat.eqb_neq in Hne. rewrite Hne. unfold allSame. split; [done|tauto].
Qed.

Lemma analyze_valid {T} `{EqDecision T} (a b c : T) :
  isIdenticalOrDistinct a b c = true →
  (analyze [a; b; c] = all_same ↔ allSame a b c) ∧
  (analyze [a; b; c] = all_different ↔ allDifferent a b c).
Proof.
  intros Hrule. apply isIdenticalOrDistinct_ruleHolds in Hrule.
  pose proof (analyze_all_same a b c) as Hsame.
  split; [done|].
  destruct (analyze [a; b; c]); split; try done.
  - intros (Hab & _ & _). destruct (proj1 Hsame eq_refl) as [? _]. done.
  - intros _. destruct Hrule as [Hs|Hd]; [|done].
    apply Hsame in Hs. discriminate.
Qed.

(** On a valid Set the explainer is truthful: for each property it says
    'all same' exactly when the three values are equal and 'all different'
    exactly when they are pairwise different. *)
Theorem analyzeSet_truthful (c1 c2 c3 : Card) :
  isValidSet c1 c2 c3 = true →
  let a := analyzeSet (c1, c2, c3) in
  ((Analysis.shape a = all_same ↔ allSame (shape c1) (shape c2) (shape c3)) ∧
   (Analysis.shape a = all_different ↔ allDifferent (shape c1) (shape c2) (shape c3))) ∧
  ((Analysis.color a = all_same ↔ allSame (color c1) (color c2) (color c3)) ∧
   (Analysis.color a = all_different ↔ allDifferent (color c1) (color c2) (color c3))) ∧
  ((Analysis.number a = all_same ↔ allSame (number c1) (number c2) (number c3)) ∧
   (Analysis.number a = all_different
    ↔ allDifferent (number c1) (number c2) (number c3))) ∧
  ((Analysis.shading a = all_same ↔ allSame (shading c1) (shading c2) (shading c3)) ∧
   (Analysis.shading a = all_different
    ↔ allDifferent (shading c1) (shading c2) (shading c3))).
Proof.
  unfold isValidSet. rewrite !andb_true_iff. intros (((Hs & Hc) & Hn) & Hh).
  simpl. split_and?; by apply analyze_valid.
Qed.

Lemma analyzeSet_truthful_witness :
  isValidSet cardA cardB cardC = true ∧
  analyzeSet (cardA, cardB, cardC)
  = {| Analysis.shape := all_different; Analysis.color := all_same;
       Analysis.number := all_same; Analysis.shading := all_same |} ∧
  (Analysis.shape (analyzeSet (cardA, cardB, cardC)) = all_different
   ↔ allDifferent (shape cardA) (shape cardB) (shape cardC)).
Proof.
  split; [reflexivity|]. split; [reflexivity|].
  exact (proj2 (proj1 (analyzeSet_truthful cardA cardB cardC eq_refl))).
Defined.

(** The explainer does not check the rule: on a property with two equal
    values and a third one it says 'all different'. *)
Theorem analyze_two_values {T} `{EqDecision T} (a b c : T) :
  ¬ ruleHolds a b c → analyze [a; b; c] = all_different.
Proof.
  intros Hno. destruct (analyze [a; b; c]) eqn:Han; [|done].
  apply analyze_all_same in Han. destruct Hno. by left.
Qed.

Lemma analyze_two_values_witness :
  ¬ ruleHolds (number cardA) (number cardB) (number cardD) ∧
  analyze [number cardA; number cardB; number cardD] = all_different.
Proof.
  assert (¬ ruleHolds (number cardA) (number cardB) (number cardD)) as Hno.
  { intros [[_ ?]|[? _]]; done. }
  split; [exact Hno|].
  exact (analyze_two_values _ _ _ Hno).
Defined.

End SolverSpec.

(** ** Corner ordering *)

Module CornerSpec.
Import Detector.

Section Extremum.
(** [pick] is [Qmin] or [Qmax]; [R] is the order it is extreme for. *)
Variable pick : Q → Q → Q.
Variable R : Q → Q → Prop.
Hypothesis pick_either : ∀ a b, pick a b = a ∨ pick a b = b.
Hypothesis pick_l : ∀ a b, R (pick a b) a.
Hypothesis pick_r : ∀ a b, R (pick a b) b.
Hypothesis R_refl : ∀ a, R a a.
Hypothesis R_trans : ∀ a b c, R a b → R b c → R a c.
Hypothesis R_eq : ∀ a b c, (a == b)%Q → R b c → R a c.

Lemma fold_pick_spec (vs : list Q) (v : Q) :
  fold_left pick vs v ∈ v :: vs ∧ ∀ w, w ∈ v :: vs → R (fold_left pick vs v) w.
Proof.
  revert v. induction vs as [|u vs IH]; intros v; simpl.
  - split; [apply list_elem_of_here|].
    intros w Hw. apply list_elem_of_singleton in Hw as ->. apply R_refl.
  - destruct (IH (pick v u)) as [Hin Hall]. split.
    + apply elem_of_cons in Hin as [Hin|Hin].
      * rewrite Hin. destruct (pick_either v u) as [->| ->].
        -- apply list_elem_of_here.
        -- apply list_elem_of_further, list_elem_of_here.
      * by do 2 apply list_elem_of_further.
    + intros w Hw.
      assert (R (fold_left pick vs (pick v u)) (pick v u)) as Hp
        by apply Hall, list_elem_of_here.
      apply elem_of_cons in Hw as [->|Hw]; [|apply elem_of_cons in Hw as [->|Hw]].
      * eapply R_trans; [exact Hp|apply pick_l].
      * eapply R_trans; [exact Hp|apply pick_r].
      * by apply Hall, list_elem_of_further.
Qed.

Lemma extremum_spec (values : list Q) :
  values ≠ [] →
  ∃ m, extremum pick values = Some m ∧ m ∈ values ∧ ∀ w, w ∈ values → R m w.
Proof.
  destruct values as [|v vs]; [done|]. intros _.
  exists (fold_left pick vs v). split; [done|]. apply fold_pick_spec.
Qed.

Lemma indexOf_found (values : list Q) (m : Q) :
  m ∈ values →
  ∃ i w, indexOf values m = Some i ∧ values !! i = Some w ∧ (w == m)%Q.
Proof.
  induction values as [|u us IH]; intros Hin; [by apply elem_of_nil in Hin|]. simpl.
  destruct (Qeq_bool u m) eqn:Hum.
  - exists 0%nat, u. split_and?; try done. by apply Qeq_bool_iff.
  - destruct IH as (i & w & Hi & Hw & Heq).
    + apply elem_of_cons in Hin as [->|Hin]; [|done].
      rewrite (proj2 (Qeq_bool_iff u u)) in Hum by reflexivity. done.
    + exists (S i), w. rewrite Hi. done.
Qed.

(** The point selected for a list that is not empty is one of its points
    and is extreme for [key]. *)
Lemma pointAtExtreme_spec (key : Point → Q) (pts : list Point) :
  pts ≠ [] →
  ∃ p, pointAtExtreme (extremum pick) pts (key <$> pts) = Some p ∧
       p ∈ pts ∧ ∀ q, q ∈ pts → R (key p) (key q).
Proof.
  intros Hne.
  destruct (extremum_spec (key <$> pts)) as (m & Hm & Hin & Hall).
  { by destruct pts. }
  destruct (indexOf_found _ _ Hin) as (i & w & Hi & Hw & Heq).
  apply list_lookup_fmap_Some in Hw as (p & -> & Hp).
  exists p. unfold pointAtExtreme. rewrite Hm. simpl. rewrite Hi. simpl.
  split; [done|]. split; [by eapply list_elem_of_lookup_2|].
  intros q Hq. eapply R_eq; [exact Heq|]. apply Hall.
  by apply list_elem_of_fmap_2.
Qed.

Lemma pointAtExtreme_nil (key : Point → Q) :
  pointAtExtreme (extremum pick) [] (key <$> []) = None.
Proof. reflexivity. Qed.
End Extremum.

Definition sumKey (p : Point) : Q := x p + y p.
Definition diffKey (p : Point) : Q := y p - x p.

Definition lowest (key : Point → Q) (pts : list Point) (p : Point) : Prop :=
  p ∈ pts ∧ ∀ q, q ∈ pts → (key p <= key q)%Q.
Definition highest (key : Point → Q) (pts : list Point) (p : Point) : Prop :=
  p ∈ pts ∧ ∀ q, q ∈ pts → (key q <= key p)%Q.


(** A quadrilateral is convex when it turns the same way at its four
    vertices. *)
Definition cross (o a b : Point) : Q :=
  (x a - x o) * (y b - y o) - (y a - y o) * (x b - x o).
Definition convexQuad (pts : list Point) : bool :=
  match pts with
  | [a; b; c; d] =>
      let turns := [cross a b c; cross b c d; cross c d a; cross d a b] in
      forallb (λ t, Qltb 0 t) turns || forallb (λ t, Qltb t 0) turns
  | _ => false
  end.

Lemma Qmin_either (a b : Q) : Qmin a b = a ∨ Qmin a b = b.
Proof. unfold Qmin, GenericMinMax.gmin. destruct (a ?= b)%Q; auto. Qed.

Lemma Qmax_either (a b : Q) : Qmax a b = a ∨ Qmax a b = b.
Proof. unfold Qmax, GenericMinMax.gmax. destruct (a ?= b)%Q; auto. Qed.

Lemma lowest_selected (key : Point → Q) (pts : list Point) :
  pts ≠ [] → ∃ p, pointAtExtreme mathMin pts (key <$> pts) = Some p ∧ lowest key pts p.
Proof.
  intros Hne.
  apply (pointAtExtreme_spec Qmin Qle Qmin_either Q.le_min_l Q.le_min_r
           Qle_refl Qle_trans); [|done].
  intros a b c Hab Hbc. by rewrite Hab.
Qed.

Lemma highest_selected (key : Point → Q) (pts : list Point) :
  pts ≠ [] → ∃ p, pointAtExtreme mathMax pts (key <$> pts) = Some p ∧ highest key pts p.
Proof.
  intros Hne.
  apply (pointAtExtreme_spec Qmax (λ a b, b <= a)%Q Qmax_either Q.le_max_l Q.le_max_r
           Qle_refl); [| |done].
  - intros a b c Hab Hbc. by eapply Qle_trans.
  - intros a b c Hab Hbc. by rewrite Hab.
Qed.




Lemma lowest_unique (key : Point → Q) (pts : list Point) (p0 : Point) :
  p0 ∈ pts → Forall (λ q, q = p0 ∨ (key p0 < key q)%Q) pts →
  ∀ p q, lowest key pts p → lowest key pts q → p = q.
Proof.
  intros Hp0 Hstrict.
  assert (∀ p, lowest key pts p → p = p0) as Hall.
  { intros p [Hp Hlow]. rewrite Forall_forall in Hstrict.
    destruct (Hstrict p Hp) as [?|Hlt]; [done|].
    specialize (Hlow p0 Hp0). exfalso. by apply (Qlt_not_le _ _ Hlt). }
  intros p q Hp Hq. by rewrite (Hall p Hp), (Hall q Hq).
Qed.

Lemma highest_unique (key : Point → Q) (pts : list Point) (p0 : Point) :
  p0 ∈ pts → Forall (λ q, q = p0 ∨ (key q < key p0)%Q) pts →
  ∀ p q, highest key pts p → highest key pts q → p = q.
Proof.
  intros Hp0 Hstrict.
  assert (∀ p, highest key pts p → p = p0) as Hall.
  { intros p [Hp Hhigh]. rewrite Forall_forall in Hstrict.
    destruct (Hstrict p Hp) as [?|Hlt]; [done|].
    specialize (Hhigh p0 Hp0). exfalso. by apply (Qlt_not_le _ _ Hlt). }
  intros p q Hp Hq. by rewrite (Hall p Hp), (Hall q Hq).
Qed.




(** A square standing on a corner, (1,0), (2,1), (1,2), (0,1), and the same
    corners listed from the second one on: (1,0) and (0,1) share the least
    x+y, (1,0) and (2,1) the least y-x. *)
Definition diamondQuad : list Point :=
  [ {| x := 1; y := 0 |}; {| x := 2; y := 1 |}; {| x := 1; y := 2 |}; {| x := 0; y := 1 |} ].
Definition diamondShifted : list Point :=
  [ {| x := 2; y := 1 |}; {| x := 1; y := 2 |}; {| x := 0; y := 1 |}; {| x := 1; y := 0 |} ].

(** C6 on the square standing on a corner.  The corner (1,0) is returned
    both as top-left and as top-right and the corner (0,1) is not returned
    at all, so the result is no ordering of the four corners; and listing
    the same corners from the second one on gives another assignment. *)
Lemma orderCorners_depends_on_order :
  convexQuad diamondQuad = true ∧
  diamondShifted ≡ₚ diamondQuad ∧
  orderCorners diamondQuad
    = [ Some {| x := 1; y := 0 |}; Some {| x := 1; y := 0 |};
        Some {| x := 2; y := 1 |}; Some {| x := 1; y := 2 |} ] ∧
  orderCorners diamondShifted
    = [ Some {| x := 0; y := 1 |}; Some {| x := 2; y := 1 |};
        Some {| x := 2; y := 1 |}; Some {| x := 1; y := 2 |} ] ∧
  orderCorners diamondShifted ≠ orderCorners diamondQuad ∧
  ¬ (orderCorners diamondQuad ≡ₚ Some <$> diamondQuad).
Proof.
  split_and?.
  - reflexivity.
  - exact (Permutation_app_comm
             [ {| x := 2; y := 1 |}; {| x := 1; y := 2 |}; {| x := 0; y := 1 |} ]
             [ {| x := 1; y := 0 |} ]).
  - reflexivity.
  - reflexivity.
  - vm_compute. discriminate.
  - intros Hperm.
    assert (Some {| x := 0; y := 1 |} ∈ Some <$> diamondQuad) as Hin.
    { unfold diamondQuad. simpl. rewrite !elem_of_cons. tauto. }
    rewrite <- Hperm in Hin.
    change (orderCorners diamondQuad)
      with [ Some {| x := 1; y := 0 |}; Some {| x := 1; y := 0 |};
             Some {| x := 2; y := 1 |}; Some {| x := 1; y := 2 |} ] in Hin.
    rewrite !elem_of_cons in Hin.
    destruct Hin as [Hin|[Hin|[Hin|[Hin|Hin]]]];
      [discriminate Hin..|by apply elem_of_nil in Hin].
Qed.

End CornerSpec.

(** ** The detector: degraded mode, deduplication, confidence *)

Module DetectorSpec.
Import Detector.

Lemma Qltb_lt (a b : Q) : Qltb a b = true ↔ (a < b)%Q.
Proof.
  unfold Qltb. rewrite negb_true_iff, <- not_true_iff_false, Qle_bool_iff.
  split; [apply Qnot_le_lt | apply Qlt_not_le].
Qed.

Lemma Qltb_ge (a b : Q) : Qltb a b = false ↔ (b <= a)%Q.
Proof.
  unfold Qltb. rewrite negb_false_iff. apply Qle_bool_iff.
Qed.

(** *** Engine unavailable *)

(** C7.  When the global [cv] is undefined, [detectCardsOpenCV] returns the
    empty list and [warpCardToImageData] returns null, whatever the image,
    the corners and the output size; neither call throws. *)
Theorem engine_unavailable (imageData : ImageData) (corners : list Point) (outW outH : Z) :
  detectCardsOpenCV None imageData = Normal [] ∧
  warpCardToImageData None imageData corners outW outH = Normal None ∧
  detectCardsOpenCV None imageData ≠ Throws ∧
  warpCardToImageData None imageData corners outW outH ≠ Throws.
Proof.
  assert (detectCardsOpenCV None imageData = Normal []) as Hd by reflexivity.
  assert (warpCardToImageData None imageData corners outW outH = Normal None) as Hw
    by reflexivity.
  split_and?; [exact Hd | exact Hw | by rewrite Hd | by rewrite Hw].
Qed.

(** Null is returned in that case only. *)
Lemma warpCardToImageData_null (cv : option Engine) (imageData : ImageData)
    (corners : list Point) (outW outH : Z) :
  warpCardToImageData cv imageData corners outW outH = Normal None ↔ cv = None.
Proof.
  split; [|by intros ->].
  destruct cv as [e|]; [|done]. simpl.
  destruct (corners !! 0%nat), (corners !! 1%nat), (corners !! 2%nat), (corners !! 3%nat);
    try discriminate.
  destruct (warpPerspective e _ _ _ _); discriminate.
Qed.

(** *** Overlap of bounding boxes *)

Definition boxArea (b : BBox) : Q :=
  let '(x1, y1, x2, y2) := b in (x2 - x1) * (y2 - y1).

(** Area of the intersection of two boxes (zero when they are apart). *)
Definition intersectionArea (a b : BBox) : Q :=
  let '(ax1, ay1, ax2, ay2) := a in
  let '(bx1, by1, bx2, by2) := b in
  Qmax 0 (Qmin ax2 bx2 - Qmax ax1 bx1) * Qmax 0 (Qmin ay2 by2 - Qmax ay1 by1).

Definition smallerArea (a b : BBox) : Q := Qmin (boxArea a) (boxArea b).

Lemma rectanglesOverlap_spec (a b : BBox) (threshold : Q) :
  rectanglesOverlap a b threshold = true
  ↔ (smallerArea a b * threshold < intersectionArea a b)%Q.
Proof.
  destruct a as [[[ax1 ay1] ax2] ay2], b as [[[bx1 by1] bx2] by2].
  unfold rectanglesOverlap, Qgtb. rewrite Qltb_lt. reflexivity.
Qed.

Lemma intersectionArea_comm (a b : BBox) :
  (intersectionArea a b == intersectionArea b a)%Q.
Proof.
  destruct a as [[[ax1 ay1] ax2] ay2], b as [[[bx1 by1] bx2] by2]. simpl.
  rewrite (Q.min_comm ax2 bx2), (Q.max_comm ax1 bx1),
    (Q.min_comm ay2 by2), (Q.max_comm ay1 by1). reflexivity.
Qed.

Lemma smallerArea_comm (a b : BBox) : (smallerArea a b == smallerArea b a)%Q.
Proof. unfold smallerArea. apply Q.min_comm. Qed.

Lemma rectanglesOverlap_comm (a b : BBox) (threshold : Q) :
  rectanglesOverlap a b threshold = rectanglesOverlap b a threshold.
Proof.
  apply eq_true_iff_eq. rewrite !rectanglesOverlap_spec.
  by rewrite intersectionArea_comm, smallerArea_comm.
Qed.

(** Two detections overlap by more than the detector's threshold. *)
Definition overlapping (a b : CardDetection.t) : bool :=
  rectanglesOverlap (CardDetection.bbox a) (CardDetection.bbox b) dedupThreshold.

(** *** The merge loop *)

Definition mergeStep (acc : list CardDetection.t) (det : CardDetection.t)
    : list CardDetection.t :=
  if existsb (λ existing, overlapping existing det) acc then acc else (acc ++ [det])%list.

Lemma addDetections_fold (acc dets : list CardDetection.t) :
  addDetections acc dets = fold_left mergeStep dets acc.
Proof. reflexivity. Qed.

Lemma addDetections_cons (acc : list CardDetection.t) d ds :
  addDetections acc (d :: ds) = addDetections (mergeStep acc d) ds.
Proof. reflexivity. Qed.

Lemma addDetections_app (acc ds1 ds2 : list CardDetection.t) :
  addDetections acc (ds1 ++ ds2)%list = addDetections (addDetections acc ds1) ds2.
Proof. rewrite !addDetections_fold. apply fold_left_app. Qed.

(** Earlier entries never overlap later ones. *)
Definition apart (l : list CardDetection.t) : Prop :=
  ∀ i j a b, (i < j)%nat → l !! i = Some a → l !! j = Some b → overlapping a b = false.


Lemma apart_nil : apart [].
Proof. intros i j a b _ Hi. by rewrite lookup_nil in Hi. Qed.

Lemma mergeStep_apart (acc : list CardDetection.t) (d : CardDetection.t) :
  apart acc → apart (mergeStep acc d).
Proof.
  intros Hacc. unfold mergeStep.
  destruct (existsb _ acc) eqn:Hdup; [done|].
  intros i j a b Hij Hi Hj.
  destruct (decide (j < length acc)%nat) as [Hlt|Hge].
  - rewrite lookup_app_l in Hi by lia. rewrite lookup_app_l in Hj by lia.
    by apply (Hacc i j a b).
  - assert (j = length acc) as ->.
    { apply lookup_lt_Some in Hj. rewrite length_app in Hj. simpl in Hj. lia. }
    rewrite lookup_app_l in Hi by lia.
    rewrite list_lookup_middle in Hj by done. injection Hj as <-.
    apply not_true_iff_false. intros Hov.
    apply not_true_iff_false in Hdup. apply Hdup.
    apply existsb_exists. exists a. split; [|done].
    apply list_elem_of_In. by eapply list_elem_of_lookup_2.
Qed.

Lemma addDetections_apart (acc dets : list CardDetection.t) :
  apart acc → apart (addDetections acc dets).
Proof.
  revert acc. induction dets as [|d ds IH]; intros acc Hacc; [done|].
  rewrite addDetections_cons. by apply IH, mergeStep_apart.
Qed.



(** Every entry of the result was there before or is one of the detections. *)
Lemma addDetections_from (acc dets : list CardDetection.t) (e : CardDetection.t) :
  e ∈ addDetections acc dets → e ∈ acc ∨ e ∈ dets.
Proof.
  revert acc. induction dets as [|d ds IH]; intros acc He; [by left|].
  rewrite addDetections_cons in He. apply IH in He as [He|He].
  - unfold mergeStep in He. destruct (existsb _ acc); [by left|].
    apply elem_of_app in He as [He|He]; [by left|].
    apply list_elem_of_singleton in He as ->. right. apply list_elem_of_here.
  - right. by apply list_elem_of_further.
Qed.




(** *** The final sort keeps the detections *)

Lemma insertSorted_perm (imageData : ImageData) (d : CardDetection.t)
    (l : list CardDetection.t) :
  insertSorted imageData d l ≡ₚ d :: l.
Proof.
  induction l as [|e l IH]; simpl; [done|].
  destruct (comesAfter imageData e d); [done|].
  rewrite IH. apply perm_swap.
Qed.

Lemma sortCards_perm (imageData : ImageData) (l : list CardDetection.t) :
  sortCards imageData l ≡ₚ l.
Proof.
  unfold sortCards. rewrite <- (reverse_Permutation l) at 2.
  induction (reverse l) as [|d k IH]; simpl; [done|].
  by rewrite insertSorted_perm, IH.
Qed.

(** *** The structure of a run *)

Lemma mapM_Normal {A B} (f : A → Completion B) (l : list A) (r : list B) :
  mapM f l = Normal r → Forall2 (λ a b, f a = Normal b) l r.
Proof.
  revert r. induction l as [|a l IH]; intros r; simpl.
  - intros [= <-]. constructor.
  - destruct (f a) as [b|] eqn:Hfa; [|discriminate]. simpl.
    destruct (mapM f l) as [k|]; [|discriminate]. simpl.
    intros [= <-]. constructor; [done|]. by apply IH.
Qed.

Lemma runStrategies_spec (detect : StrategyParams → Completion (list CardDetection.t))
    (todo : list StrategyParams) (acc out : list CardDetection.t) :
  runStrategies detect todo acc = Normal out →
  ∃ found : list (list CardDetection.t),
    Forall2 (λ s d, detect s = Normal d) todo found ∧
    out = addDetections acc (concat found).
Proof.
  revert acc. induction todo as [|s todo IH]; intros acc; simpl.
  - intros [= <-]. exists []. split; [constructor|done].
  - destruct (detect s) as [d|] eqn:Hd; [|discriminate]. simpl.
    intros Hrun. apply IH in Hrun as (found & Hfound & ->).
    exists (d :: found). split; [by constructor|].
    simpl. by rewrite addDetections_app.
Qed.

(** What a run of the detector with an engine is made of: the detections
    [found] of the strategies, in the order of [strategies], computed on the
    downscaled geometry; the output is their merge, sorted. *)
Lemma detectCardsOpenCV_run (cv : Engine) (imageData : ImageData)
    (out : list CardDetection.t) :
  detectCardsOpenCV (Some cv) imageData = Normal out →
  ∃ (imgRows imgCols : Z) (scale imgArea : Q) (found : list (list CardDetection.t)),
    Forall2 (λ s d, detectWithStrategy cv imageData imgRows imgCols scale imgArea s
                    = Normal d) strategies found ∧
    out = sortCards imageData (addDetections [] (concat found)).
Proof.
  unfold detectCardsOpenCV.
  set (detect := detectWithStrategy cv imageData _ _ _ _).
  destruct (runStrategies detect strategies []) as [allCards|] eqn:Hrun; [|discriminate].
  simpl. intros [= <-].
  apply runStrategies_spec in Hrun as (found & Hfound & ->).
  by eexists _, _, _, _, found.
Qed.

(** *** The image the strategies work on *)






(** *** Cross-strategy deduplication *)






(** *** An engine that finds two cards *)

Definition contourA : Contour :=
  {| area := 15000; rectWidth := 100; rectHeight := 150;
     rectPoints := [ {| x := 100; y := 100 |}; {| x := 200; y := 100 |};
                     {| x := 200; y := 250 |}; {| x := 100; y := 250 |} ];
     satStd := 20 |}.

(** The same card 60 pixels to the right. *)
Definition contourB : Contour :=
  {| area := 15000; rectWidth := 100; rectHeight := 150;
     rectPoints := [ {| x := 160; y := 100 |}; {| x := 260; y := 100 |};
                     {| x := 260; y := 250 |}; {| x := 160; y := 250 |} ];
     satStd := 20 |}.

(** The strict strategy finds the first card, the relaxed one the second. *)
Definition twoCardEngine : Engine :=
  {| hasMat := true;
     findContours := λ _ _ _ params,
       Normal (if (sThresh params =? 60)%Z then [contourA]
               else if (sThresh params =? 80)%Z then [contourB] else []);
     warpPerspective := λ _ _ outW outH,
       Normal {| width := outW; height := outH; data := [] |} |}.

Definition frame1000 : ImageData := {| width := 1000; height := 1000; data := [] |}.

Definition boxA : BBox := (100, 100, 200, 250)%Q.
Definition boxB : BBox := (160, 100, 260, 250)%Q.


(** The boxes at a shift of 59, 60 and 61 pixels: just above, at, and just
    below 40% of the smaller box. *)
Example rectanglesOverlap_around_threshold :
  rectanglesOverlap boxA (159, 100, 259, 250)%Q dedupThreshold = true ∧
  rectanglesOverlap boxA boxB dedupThreshold = false ∧
  rectanglesOverlap boxA (161, 100, 261, 250)%Q dedupThreshold = false.
Proof. by vm_compute. Qed.





(** *** Confidence of a detection *)






Lemma detectWithStrategy_elem (cv : Engine) (imageData : ImageData)
    (imgRows imgCols : Z) (scale imgArea : Q) (params : StrategyParams)
    (ds : list CardDetection.t) (d : CardDetection.t) :
  detectWithStrategy cv imageData imgRows imgCols scale imgArea params = Normal ds →
  d ∈ ds →
  ∃ contours c,
    findContours cv imageData imgRows imgCols params = Normal contours ∧
    c ∈ contours ∧
    examineContour imgRows imgCols scale imgArea c = Normal (Some d).
Proof.
  unfold detectWithStrategy.
  destruct (findContours cv imageData imgRows imgCols params) as [contours|];
    [|discriminate]. simpl.
  destruct (mapM _ contours) as [found|] eqn:Hfound; [|discriminate]. simpl.
  intros [= <-] Hd.
  apply list_elem_of_omap in Hd as (o & Ho & ->).
  apply mapM_Normal in Hfound.
  apply list_elem_of_lookup in Ho as [i Hi].
  destruct (Forall2_lookup_r _ _ _ _ _ Hfound Hi) as (c & Hc & Hex).
  exists contours, c. split; [done|]. split; [|done].
  by eapply list_elem_of_lookup_2.
Qed.





(** The bound by 1 rests on the engine: the detector passes the ratio on as
    it is, so measures with a contour larger than its rectangle give a
    confidence above 1. *)
Definition contourTooLarge : Contour :=
  {| area := 20000; rectWidth := 100; rectHeight := 150;
     rectPoints := rectPoints contourA; satStd := 20 |}.

Definition looseEngine : Engine :=
  {| hasMat := true;
     findContours := λ _ _ _ params,
       Normal (if (sThresh params =? 60)%Z then [contourTooLarge] else []);
     warpPerspective := λ _ _ outW outH,
       Normal {| width := outW; height := outH; data := [] |} |}.

Example confidence_follows_the_engine :
  ∃ d, detectCardsOpenCV (Some looseEngine) frame1000 = Normal [d] ∧
       (CardDetection.confidence d == 4 # 3)%Q.
Proof. eexists. split; [vm_compute; reflexivity|]. reflexivity. Qed.

End DetectorSpec.

(** ** The frame pipeline: guard flag and card ids *)

Module HookSpec.
Import Solver Detector Hook.

Lemma generateMockCards_ids (random : nat → Q) :
  id <$> generateMockCards random = seq 0 12.
Proof. reflexivity. Qed.

(** Where the loop of step 2 can leave a call: finished with the cards it had,
    failed, or waiting for the classification of [detections[idx]] with the
    cards it had. *)
Inductive LoopOutcome (st : HookState) (startTime : Q) (idx0 : nat)
    (cards0 : list Card) (now1 now2 : Q) : HookState * Progress → Prop :=
| loop_finished :
    LoopOutcome st startTime idx0 cards0 now1 now2 (finish st startTime cards0 now1 now2)
| loop_failed :
    LoopOutcome st startTime idx0 cards0 now1 now2 (failed st)
| loop_suspended (w : Awaiting) :
    idx w = idx0 → cards w = cards0 →
    LoopOutcome st startTime idx0 cards0 now1 now2 (st, Suspended w).

(** Without an engine every remaining region is skipped. *)
Lemma classifyLoop_no_engine st imageData startTime detections idx remaining
    cards now1 now2 :
  classifyLoop None st imageData startTime detections idx remaining cards now1 now2
  = finish st startTime cards now1 now2.
Proof.
  revert idx. induction remaining as [|d rest IH]; intros idx; simpl; [done|].
  apply IH.
Qed.

Lemma classifyLoop_outcome cv st imageData startTime detections idx remaining
    cards now1 now2 :
  LoopOutcome st startTime idx cards now1 now2
    (classifyLoop cv st imageData startTime detections idx remaining cards now1 now2).
Proof.
  destruct cv as [e|]; [|rewrite classifyLoop_no_engine; constructor].
  destruct remaining as [|d rest]; simpl; [constructor|].
  destruct (CardDetection.corners d !! 0%nat), (CardDetection.corners d !! 1%nat),
    (CardDetection.corners d !! 2%nat), (CardDetection.corners d !! 3%nat);
    try constructor.
  destruct (warpPerspective e _ _ _ _); simpl; [|constructor].
  destruct (classifierRef st); by constructor.
Qed.

(** The cards gathered so far are numbered by their positions. *)
Definition numbered (cards : list Card) : Prop := id <$> cards = seq 0 (length cards).

(** A waiting call has classified the regions before [idx], all of them. *)
Definition inOrder (w : Awaiting) : Prop :=
  numbered (cards w) ∧ length (cards w) = idx w.

(** One call at most waits, and the flag is up exactly while it does. *)
Definition guarded (s : System) : Prop :=
  (waiting s = [] ∧ isProcessingRef (hook s) = false)
  ∨ (∃ w, waiting s = [w] ∧ isProcessingRef (hook s) = true ∧ inOrder w).

Lemma numbered_nil : numbered [].
Proof. reflexivity. Qed.

Lemma numbered_snoc (cards : list Card) (c : Card) :
  numbered cards → id c = length cards → numbered (cards ++ [c]).
Proof.
  unfold numbered. intros Hn Hc.
  rewrite fmap_app, length_app, Hn. simpl.
  rewrite Nat.add_1_r, seq_S. simpl. by rewrite Hc.
Qed.

Lemma numbered_lookup (cards : list Card) (p : nat) (c : Card) :
  numbered cards → cards !! p = Some c → id c = p.
Proof.
  unfold numbered. intros Hn Hp.
  assert ((id <$> cards) !! p = Some (id c)) as Hid by by rewrite list_lookup_fmap, Hp.
  rewrite Hn in Hid. apply lookup_seq in Hid as [Hid _]. simpl in Hid. lia.
Qed.

Section FramesSpec.
Variable MOCK_MODE : bool.

(** What holds after a turn in which a call was let in or went on: the guard
    invariant; if a call returned, the flag is down and no call waits; if it
    returned a result, the cards of the result are numbered by position. *)
Definition settled (r : System * option (option ProcessedResult.t)) : Prop :=
  guarded r.1 ∧
  (∀ v, r.2 = Some v → isProcessingRef (hook r.1) = false ∧ waiting r.1 = []) ∧
  (∀ res, r.2 = Some (Some res) → numbered (ProcessedResult.cards res)).

(** A call made while the flag is up. *)
Definition dropped (s : System) (e : Event)
    (r : System * option (option ProcessedResult.t)) : Prop :=
  isProcessingRef (hook s) = true ∧
  (∃ imageData random clock, e = CallProcessFrame imageData random clock) ∧
  r = (s, Some None).

Lemma settled_finish (s : System) (st : HookState) (startTime : Q)
    (cards : list Card) (now1 now2 : Q) :
  numbered cards →
  settled (withProgress s [] (finish st startTime cards now1 now2)).
Proof.
  intros Hn. unfold settled, finish, withProgress. simpl. split_and?.
  - by left.
  - done.
  - by intros res [= <-].
Qed.

Lemma settled_failed (s : System) (st : HookState) :
  settled (withProgress s [] (failed st)).
Proof.
  unfold settled, failed, withProgress. simpl. split_and?.
  - by left.
  - done.
  - intros res [=].
Qed.

Lemma settled_loop (s : System) (st : HookState) (startTime : Q) (idx : nat)
    (cards : list Card) (now1 now2 : Q) (r : HookState * Progress) :
  LoopOutcome st startTime idx cards now1 now2 r →
  isProcessingRef st = true → numbered cards → length cards = idx →
  settled (withProgress s [] r).
Proof.
  intros Hr Hflag Hn Hlen. destruct Hr as [| |w Hidx Hcards].
  - by apply settled_finish.
  - apply settled_failed.
  - unfold settled, withProgress. simpl. split_and?; [|done|done].
    right. exists w. split_and?; try done.
    unfold inOrder. by rewrite Hcards, Hidx.
Qed.

Lemma processFrame_busy (cv : option Engine) (random clock : nat → Q)
    (st : HookState) (imageData : ImageData) :
  isProcessingRef st = true →
  processFrame MOCK_MODE cv random clock st imageData = (st, Returned None).
Proof. intros Hflag. unfold processFrame. by rewrite Hflag. Qed.

(** One turn from a guarded state. *)
Lemma step_guarded (s : System) (e : Event) :
  guarded s → dropped s e (step MOCK_MODE s e) ∨ settled (step MOCK_MODE s e).
Proof.
  intros Hg. destruct e as [imageData random clock|n outcome clock| | | |cv']; simpl.
  - (* a call *)
    destruct Hg as [[Hw Hflag]|(w & Hw & Hflag & Hord)].
    + right. rewrite Hw. unfold processFrame. rewrite Hflag.
      set (st := setIsProcessingRef true (hook s)).
      destruct (MOCK_MODE || _).
      { apply settled_finish. unfold numbered. by rewrite generateMockCards_ids. }
      destruct (negb (isOpenCVLoaded (cv s))).
      { apply settled_finish. unfold numbered. by rewrite generateMockCards_ids. }
      destruct (detectCardsOpenCV (cv s) imageData) as [detections|];
        [|apply settled_failed].
      destruct (length detections =? 0)%nat.
      { apply settled_finish, numbered_nil. }
      eapply settled_loop; [apply classifyLoop_outcome|done|apply numbered_nil|done].
    + left. split; [done|]. split; [by eexists _, _, _|].
      rewrite processFrame_busy by done. by destruct s.
  - (* the awaited promise settles *)
    right. destruct Hg as [[Hw Hflag]|(w & Hw & Hflag & [Hn Hlen])]; rewrite Hw.
    { rewrite lookup_nil. unfold settled; simpl; split_and?; [by left|done|done]. }
    destruct n as [|n]; simpl;
      [|unfold settled; simpl; split_and?; [right; by exists w|done|done]].
    unfold processFrameResume.
    destruct outcome as [classification|]; [|apply settled_failed].
    simpl.
    eapply settled_loop; [apply classifyLoop_outcome|done| |].
    + apply numbered_snoc; [exact Hn|]. simpl. by rewrite Hlen.
    + rewrite length_app. simpl. lia.
  - (* loadModels *)
    right. destruct MOCK_MODE; unfold settled; simpl;
      (split_and?; [|done|done]);
      (destruct Hg as [[Hw Hflag]|(w & Hw & Hflag & Hord)];
        [by left|right; by exists w]).
  - right. unfold settled; simpl; split_and?; [|done|done].
    destruct Hg as [[Hw Hflag]|(w & Hw & Hflag & Hord)]; [by left|right; by exists w].
  - right. unfold settled; simpl; split_and?; [|done|done].
    destruct Hg as [[Hw Hflag]|(w & Hw & Hflag & Hord)]; [by left|right; by exists w].
  - right. unfold settled; simpl; split_and?; [|done|done].
    destruct Hg as [[Hw Hflag]|(w & Hw & Hflag & Hord)]; [by left|right; by exists w].
Qed.

Lemma reachable_guarded (s : System) : reachable MOCK_MODE s → guarded s.
Proof.
  induction 1 as [cv0|s e Hs IH].
  - by left.
  - destruct (step_guarded s e IH) as [(_ & _ & ->)|[Hg _]]; done.
Qed.

(** C8.  In every state the page can reach, at most one call of
    [processFrame] is in flight, and the flag is up exactly while one is.
    A call made while the flag is up returns null at once and changes
    nothing.  Whenever a call that was let in returns, with a result or with
    null after an error, the flag is down again. *)
Theorem one_frame_in_flight (s : System) :
  reachable MOCK_MODE s →
  (length (waiting s) ≤ 1)%nat ∧
  (isProcessingRef (hook s) = true ↔ waiting s ≠ []) ∧
  (∀ imageData random clock,
     isProcessingRef (hook s) = true →
     processFrame MOCK_MODE (cv s) random clock (hook s) imageData
       = (hook s, Returned None) ∧
     step MOCK_MODE s (CallProcessFrame imageData random clock) = (s, Some None)) ∧
  (∀ e s' v,
     step MOCK_MODE s e = (s', Some v) →
     (isProcessingRef (hook s) = true ∧ s' = s ∧ v = None)
     ∨ (isProcessingRef (hook s') = false ∧ waiting s' = [])).
Proof.
  intros Hs. pose proof (reachable_guarded s Hs) as Hg. split_and?.
  - destruct Hg as [[-> _]|(w & -> & _)]; simpl; lia.
  - destruct Hg as [[-> Hflag]|(w & -> & Hflag & _)]; rewrite Hflag; split; done.
  - intros imageData random clock Hflag.
    split; [by apply processFrame_busy|].
    simpl. rewrite processFrame_busy by done. by destruct s.
  - intros e s' v Hstep.
    destruct (step_guarded s e Hg) as [(Hflag & _ & Hr)|(_ & Hret & _)].
    + left. rewrite Hr in Hstep. by injection Hstep as <- <-.
    + right. rewrite Hstep in Hret. by apply (Hret v).
Qed.

(** C4.  In every result a call of [processFrame] returns, the card at
    position p of the card list has id p.  (A region is skipped only when
    the engine is gone, and then every later region of the frame is skipped
    too: the cards of a result are those of the first regions.) *)
Theorem card_id_is_position (s s' : System) (e : Event) (r : ProcessedResult.t)
    (p : nat) (c : Card) :
  reachable MOCK_MODE s →
  step MOCK_MODE s e = (s', Some (Some r)) →
  ProcessedResult.cards r !! p = Some c →
  id c = p.
Proof.
  intros Hs Hstep Hp.
  destruct (step_guarded s e (reachable_guarded s Hs)) as [(_ & _ & Hr)|(_ & _ & Hres)].
  - rewrite Hr in Hstep. discriminate.
  - rewrite Hstep in Hres.
    apply (numbered_lookup (ProcessedResult.cards r)); [by apply Hres|exact Hp].
Qed.

End FramesSpec.

(** *** A frame during which the engine goes away *)

Definition zeros : nat → Q := λ _, 0%Q.

(** The page with the classifier stored and the two-card engine loaded. *)
Definition pageLoaded : System :=
  (step false (mounted false (Some DetectorSpec.twoCardEngine)) LoadModelsStarts).1.

(** A frame is let in: two regions are detected, the first is rectified and
    its classification awaited. *)
Definition frameInFlight : System :=
  (step false pageLoaded (CallProcessFrame DetectorSpec.frame1000 zeros zeros)).1.

(** Meanwhile the global [cv] becomes undefined. *)
Definition engineLost : System := (step false frameInFlight (EngineChanges None)).1.

Definition classified : Event :=
  ClassifySettles 0
    (Normal {| ClassificationResult.shape := 0; ClassificationResult.color := 0;
               ClassificationResult.number := 0; ClassificationResult.shading := 0 |})
    zeros.

Lemma frameInFlight_reachable : reachable false frameInFlight.
Proof. do 2 apply reachable_step. apply reachable_mounted. Qed.

Lemma engineLost_reachable : reachable false engineLost.
Proof. apply reachable_step, frameInFlight_reachable. Qed.

Lemma frameInFlight_waits :
  ∃ w, waiting frameInFlight = [w] ∧ idx w = 0%nat ∧ length (detections w) = 2%nat ∧
       isProcessingRef (hook frameInFlight) = true.
Proof. eexists. split; [vm_compute; reflexivity|]. by vm_compute. Qed.

Lemma one_frame_in_flight_witness :
  reachable false frameInFlight ∧
  (length (waiting frameInFlight) ≤ 1)%nat ∧
  (isProcessingRef (hook frameInFlight) = true ↔ waiting frameInFlight ≠ []) ∧
  (∀ imageData random clock,
     isProcessingRef (hook frameInFlight) = true →
     processFrame false (cv frameInFlight) random clock (hook frameInFlight) imageData
       = (hook frameInFlight, Returned None) ∧
     step false frameInFlight (CallProcessFrame imageData random clock)
       = (frameInFlight, Some None)) ∧
  (∀ e s' v,
     step false frameInFlight e = (s', Some v) →
     (isProcessingRef (hook frameInFlight) = true ∧ s' = frameInFlight ∧ v = None)
     ∨ (isProcessingRef (hook s') = false ∧ waiting s' = [])).
Proof.
  split; [exact frameInFlight_reachable|].
  exact (one_frame_in_flight false frameInFlight frameInFlight_reachable).
Defined.

(** The second region is skipped, and the frame returns the first card
    alone, with id 0 at position 0. *)
Lemma card_id_is_position_witness :
  ∃ s' r c,
    reachable false engineLost ∧
    step false engineLost classified = (s', Some (Some r)) ∧
    ProcessedResult.cards r !! 0%nat = Some c ∧
    length (ProcessedResult.cards r) = 1%nat ∧
    id c = 0%nat.
Proof.
  assert (∃ s' r c, step false engineLost classified = (s', Some (Some r)) ∧
                    ProcessedResult.cards r !! 0%nat = Some c ∧
                    length (ProcessedResult.cards r) = 1%nat)
    as (s' & r & c & Hstep & Hcard & Hlen).
  { eexists _, _, _. split_and?; vm_compute; reflexivity. }
  exists s', r, c.
  split; [exact engineLost_reachable|]. split; [exact Hstep|].
  split; [exact Hcard|]. split; [exact Hlen|].
  exact (card_id_is_position false engineLost s' classified r 0%nat c
           engineLost_reachable Hstep Hcard).
Defined.

(** *** Two more runs of the same frame *)

(** Both regions are classified in turn: the result holds two cards, with
    ids 0 and 1, and the flag is down. *)
Example frame_completes :
  let s1 := (step false frameInFlight classified).1 in
  let r2 := step false s1 classified in
  (length (waiting s1) = 1%nat ∧ isProcessingRef (hook s1) = true) ∧
  (id <$> from_option ProcessedResult.cards [] (default None r2.2) = [0; 1]%nat) ∧
  isProcessingRef (hook r2.1) = false ∧ waiting r2.1 = [].
Proof. by vm_compute. Qed.

(** The classification is rejected: the call returns null, the flag is down,
    and the next frame is let in. *)
Example frame_fails :
  let r1 := step false frameInFlight (ClassifySettles 0 Throws zeros) in
  let r2 := step false r1.1 (CallProcessFrame DetectorSpec.frame1000 zeros zeros) in
  r1.2 = Some None ∧ isProcessingRef (hook r1.1) = false ∧
  length (waiting r2.1) = 1%nat ∧ isProcessingRef (hook r2.1) = true.
Proof. by vm_compute. Qed.

(** A second call while the first frame waits is dropped. *)
Example second_call_dropped :
  step false frameInFlight (CallProcessFrame DetectorSpec.frame1000 zeros zeros)
  = (frameInFlight, Some None).
Proof. reflexivity. Qed.

End HookSpec.

(** ** The classifier's pure steps *)

Module ClassifierSpec.
Import Solver Classifier.

Lemma Qgtb_gt (a b : Q) : Qgtb a b = true ↔ (b < a)%Q.
Proof. unfold Qgtb. apply DetectorSpec.Qltb_lt. Qed.

Lemma Qgtb_le (a b : Q) : Qgtb a b = false ↔ (a <= b)%Q.
Proof. unfold Qgtb. apply DetectorSpec.Qltb_ge. Qed.

(** The loop keeps: the running maximum is the value at [maxIdx], it is at
    least every value before [i] and more than every value before
    [maxIdx]. *)
Lemma argmaxFrom_spec (arr : list Q) (i : nat) (rest : list Q) (maxIdx : nat) (maxVal : Q) :
  arr = (take i arr ++ rest)%list → length (take i arr) = i →
  (maxIdx < i)%nat → arr !! maxIdx = Some maxVal →
  (∀ j v, (j < i)%nat → arr !! j = Some v → (v <= maxVal)%Q) →
  (∀ j v, (j < maxIdx)%nat → arr !! j = Some v → (v < maxVal)%Q) →
  ∃ m, arr !! argmaxFrom i rest maxIdx maxVal = Some m ∧
       (∀ j v, arr !! j = Some v → (v <= m)%Q) ∧
       (∀ j v, (j < argmaxFrom i rest maxIdx maxVal)%nat → arr !! j = Some v → (v < m)%Q).
Proof.
  revert i maxIdx maxVal. induction rest as [|w rest IH]; intros i maxIdx maxVal
    Harr Hlen Hidx Hmax Hge Hgt; simpl.
  - exists maxVal. split; [done|]. split; [|done].
    intros j v Hj. apply (Hge j v); [|done].
    apply lookup_lt_Some in Hj. rewrite Harr, length_app, Hlen in Hj. simpl in Hj. lia.
  - assert (arr !! i = Some w) as Hi.
    { rewrite Harr. rewrite lookup_app_r by lia. by rewrite Hlen, Nat.sub_diag. }
    assert (arr = (take (S i) arr ++ rest)%list ∧ length (take (S i) arr) = S i)
      as [Harr' Hlen'].
    { rewrite (take_S_r arr i w Hi). rewrite <- app_assoc. simpl.
      split; [done|]. rewrite length_app, Hlen. simpl. lia. }
    destruct (Qgtb w maxVal) eqn:Hcmp.
    + apply Qgtb_gt in Hcmp. apply IH; try done; try lia.
      * intros j v Hj Hv. destruct (decide (j = i)) as [->|Hne].
        -- rewrite Hi in Hv. injection Hv as <-. apply Qle_refl.
        -- apply Qlt_le_weak. eapply Qle_lt_trans; [|exact Hcmp].
           apply (Hge j v); [lia|done].
      * intros j v Hj Hv. eapply Qle_lt_trans; [|exact Hcmp]. by apply (Hge j v).
    + apply Qgtb_le in Hcmp. apply IH; try done; try lia.
      intros j v Hj Hv. destruct (decide (j = i)) as [->|Hne].
      * rewrite Hi in Hv. by injection Hv as <-.
      * apply (Hge j v); [lia|done].
Qed.

Lemma argmax_nonempty (arr : list Q) :
  arr ≠ [] →
  ∃ m, arr !! argmax arr = Some m ∧
       (∀ j v, arr !! j = Some v → (v <= m)%Q) ∧
       (∀ j v, (j < argmax arr)%nat → arr !! j = Some v → (v < m)%Q).
Proof.
  destruct arr as [|v0 rest]; [done|]. intros _. unfold argmax.
  apply argmaxFrom_spec; try done.
  - lia.
  - intros [|j] v Hj Hv; [|lia]. injection Hv as <-. apply Qle_refl.
  - intros j v Hj. lia.
Qed.

(** On an array that is not empty, [argmax] returns the position of the
    first greatest value: a position of the array, whose value no value
    exceeds and every earlier value is below.  On the empty array it returns
    0. *)
Theorem argmax_first_greatest (arr : list Q) :
  (arr = [] → argmax arr = 0%nat) ∧
  (arr ≠ [] →
   ∃ m, arr !! argmax arr = Some m ∧
        (∀ j v, arr !! j = Some v → (v <= m)%Q) ∧
        (∀ j v, (j < argmax arr)%nat → arr !! j = Some v → (v < m)%Q)).
Proof. split; [by intros ->|apply argmax_nonempty]. Qed.

(** The index of a head with at most three logits is 0, 1 or 2. *)
Lemma argmax_in_table (head : option (list Q)) :
  (∀ l, head = Some l → (length l ≤ 3)%nat) →
  SolverSpec.inTable (Z.of_nat (argmax (logitsOf head))).
Proof.
  intros Hlen. unfold SolverSpec.inTable.
  assert (length (logitsOf head) ≤ 3)%nat as Hle.
  { destruct head as [l|]; simpl; [by apply Hlen|lia]. }
  destruct (logitsOf head) as [|v0 rest] eqn:Hl; [simpl; lia|].
  assert (argmax (v0 :: rest) < length (v0 :: rest))%nat as Hlt.
  { destruct (argmax_nonempty (v0 :: rest)) as (m & Hm & _); [done|].
    by apply lookup_lt_Some in Hm. }
  lia.
Qed.

(** The heads have at most three logits each, as the model's do. *)
Definition threeWay (outputs : Outputs) : Prop :=
  (∀ l, shapeHead outputs = Some l → (length l ≤ 3)%nat) ∧
  (∀ l, colorHead outputs = Some l → (length l ≤ 3)%nat) ∧
  (∀ l, numberHead outputs = Some l → (length l ≤ 3)%nat) ∧
  (∀ l, shadingHead outputs = Some l → (length l ≤ 3)%nat).

(** The indices [postprocess] computes from heads of at most three logits
    always convert to a card with four defined properties; a missing head
    counts as three zeros and gives the first value of its table. *)
Theorem postprocess_gives_defined_card (outputs : Outputs) :
  threeWay outputs →
  let c := postprocess outputs in
  ∃ p : CardProperties,
    indicesToCard (ClassificationResult.shape c) (ClassificationResult.color c)
                  (ClassificationResult.number c) (ClassificationResult.shading c)
    = Normal p ∧
    SolverSpec.wellFormed p ∧
    (shapeHead outputs = None → shape p = Some diamond) ∧
    (colorHead outputs = None → color p = Some red) ∧
    (numberHead outputs = None → number p = Some N1) ∧
    (shadingHead outputs = None → shading p = Some solid).
Proof.
  intros (Hs & Hc & Hn & Hh). simpl. eexists. split; [reflexivity|]. simpl.
  split.
  - unfold SolverSpec.wellFormed. simpl. split_and?.
    + destruct (SolverSpec.tableAt_in SHAPES _ eq_refl (argmax_in_table _ Hs))
        as (v & _ & ->). by eexists.
    + destruct (SolverSpec.tableAt_in COLORS _ eq_refl (argmax_in_table _ Hc))
        as (v & _ & ->). by eexists.
    + destruct (SolverSpec.tableAt_in NUMBERS _ eq_refl (argmax_in_table _ Hn))
        as (v & _ & ->). by eexists.
    + destruct (SolverSpec.tableAt_in SHADINGS _ eq_refl (argmax_in_table _ Hh))
        as (v & _ & ->). by eexists.
  - split_and?; by intros ->.
Qed.

(** The model's output for one card, with the shading head missing. *)
Definition someOutputs : Outputs :=
  {| shapeHead := Some [1 # 2; 3; -1]%Q; colorHead := Some [0; 0; 2]%Q;
     numberHead := Some [5; 5; 1]%Q; shadingHead := None |}.

Lemma postprocess_gives_defined_card_witness :
  threeWay someOutputs ∧
  ∃ p : CardProperties,
    indicesToCard (ClassificationResult.shape (postprocess someOutputs))
                  (ClassificationResult.color (postprocess someOutputs))
                  (ClassificationResult.number (postprocess someOutputs))
                  (ClassificationResult.shading (postprocess someOutputs))
    = Normal p ∧
    SolverSpec.wellFormed p ∧
    (shapeHead someOutputs = None → shape p = Some diamond) ∧
    (colorHead someOutputs = None → color p = Some red) ∧
    (numberHead someOutputs = None → number p = Some N1) ∧
    (shadingHead someOutputs = None → shading p = Some solid).
Proof.
  assert (threeWay someOutputs) as Hthree.
  { unfold threeWay, someOutputs. simpl. split_and?; intros l [= <-]; simpl; lia. }
  split; [exact Hthree|].
  exact (postprocess_gives_defined_card someOutputs Hthree).
Defined.

Example postprocess_someOutputs :
  postprocess someOutputs
  = {| ClassificationResult.shape := 1; ClassificationResult.color := 2;
       ClassificationResult.number := 0; ClassificationResult.shading := 0 |}.
Proof. reflexivity. Qed.

(** *** Resizing *)

(** The four bytes of pixel [i]. *)
Definition pixelAt (data : list Z) (i : nat) : list Z :=
  [ byteAt data (i * 4); byteAt data (i * 4 + 1); byteAt data (i * 4 + 2);
    byteAt data (i * 4 + 3) ].

Lemma bind_all_nil_range {B} (h : nat) (f : nat → nat → list B) :
  (range 0 h ≫= λ y, range 0 0 ≫= f y) = [].
Proof. apply SolverSpec.bind_all_nil. intros y _. reflexivity. Qed.

Lemma length_bind_const {A B} (f : A → list B) (l : list A) (c : nat) :
  (∀ a, length (f a) = c) → length (l ≫= f) = (length l * c)%nat.
Proof.
  intros Hf. induction l as [|a l IH]; [done|].
  rewrite bind_cons, length_app, Hf, IH. simpl. lia.
Qed.

Lemma bind_seq_shift {B} (f : nat → list B) (a n : nat) :
  seq a n ≫= f = seq 0 n ≫= λ x, f (a + x)%nat.
Proof.
  rewrite <- (Nat.add_0_r a) at 1. rewrite <- fmap_add_seq. by rewrite list_fmap_bind.
Qed.

(** Going through the rows and the columns is going through the pixels in
    order. *)
Lemma bind_rows {B} (f : nat → list B) (w h : nat) :
  (range 0 h ≫= λ y, range 0 w ≫= λ x, f (y * w + x)%nat) = range 0 (h * w) ≫= f.
Proof.
  unfold range. rewrite !Nat.sub_0_r.
  induction h as [|h IH]; [done|].
  rewrite seq_S, bind_app, IH. simpl.
  replace (w + h * w)%nat with (h * w + w)%nat by lia.
  rewrite seq_app, bind_app. f_equal. rewrite app_nil_r. simpl.
  symmetry. apply bind_seq_shift.
Qed.

Lemma pixels_all (data : list Z) (n : nat) :
  length data = (n * 4)%nat → seq 0 n ≫= pixelAt data = data.
Proof.
  revert data. induction n as [|n IH]; intros data Hlen.
  { by destruct data. }
  destruct data as [|a [|b [|c [|d rest]]]]; try (simpl in Hlen; lia).
  simpl seq. rewrite bind_cons. unfold pixelAt at 1. simpl.
  do 4 f_equal. rewrite <- fmap_S_seq, list_fmap_bind.
  rewrite <- (IH rest) at 2 by (simpl in Hlen; lia).
  apply list_bind_ext; [|done]. intros i. unfold pixelAt, byteAt, compose. simpl.
  replace (i * 4 + 1)%nat with (S (i * 4)) by lia.
  replace (i * 4 + 2)%nat with (S (S (i * 4))) by lia.
  replace (i * 4 + 3)%nat with (S (S (S (i * 4)))) by lia.
  reflexivity.
Qed.

Lemma floor_unit_ratio (x w : nat) :
  (0 < w)%nat →
  Z.to_nat (Qfloor (inject_Z (Z.of_nat x)
                    * (inject_Z (Z.of_nat w) / inject_Z (Z.of_nat w)))) = x.
Proof.
  intros Hw.
  assert (inject_Z (Z.of_nat x) * (inject_Z (Z.of_nat w) / inject_Z (Z.of_nat w))
          == inject_Z (Z.of_nat x))%Q as Heq.
  { unfold Qdiv. rewrite Qmult_inv_r, Qmult_1_r; [reflexivity|].
    intros H0. unfold Qeq in H0. simpl in H0. lia. }
  rewrite Heq, Qfloor_Z. lia.
Qed.

(** [resize] returns four bytes for every pixel of the destination; and
    resizing an image to its own size gives the image back. *)
Theorem resize_size_and_identity (data : list Z) (srcWidth srcHeight dstWidth dstHeight : nat) :
  length (resize data srcWidth srcHeight dstWidth dstHeight)
  = (dstWidth * dstHeight * 4)%nat ∧
  (length data = (srcWidth * srcHeight * 4)%nat →
   resize data srcWidth srcHeight srcWidth srcHeight = data).
Proof.
  split.
  - unfold resize.
    rewrite (length_bind_const _ _ (dstWidth * 4)).
    + unfold range. rewrite length_seq. lia.
    + intros y. rewrite (length_bind_const _ _ 4) by done.
      unfold range. rewrite length_seq. lia.
  - intros Hlen. unfold resize.
    destruct (decide (srcWidth = 0)%nat) as [->|Hw].
    { destruct data; [|simpl in Hlen; lia]. by apply bind_all_nil_range. }
    destruct (decide (srcHeight = 0)%nat) as [->|Hh].
    { destruct data; [done|simpl in Hlen; lia]. }
    transitivity (range 0 (srcHeight * srcWidth) ≫= pixelAt data).
    2:{ unfold range. rewrite Nat.sub_0_r. apply pixels_all. lia. }
    rewrite <- (bind_rows (pixelAt data) srcWidth srcHeight).
    apply SolverSpec.bind_ext_in. intros y Hy.
    apply SolverSpec.bind_ext_in. intros x Hx.
    rewrite !floor_unit_ratio by lia. reflexivity.
Qed.

(** The first of two equal greatest values is chosen. *)
Lemma argmax_first_greatest_witness :
  let arr := [1; 3; 3; 2]%Q in
  arr ≠ [] ∧
  ∃ m, arr !! argmax arr = Some m ∧
       (∀ j v, arr !! j = Some v → (v <= m)%Q) ∧
       (∀ j v, (j < argmax arr)%nat → arr !! j = Some v → (v < m)%Q).
Proof.
  simpl. split; [discriminate|].
  apply (proj2 (argmax_first_greatest [1; 3; 3; 2]%Q)). discriminate.
Defined.

(** An image of two pixels. *)
Lemma resize_size_and_identity_witness :
  let data := [1; 2; 3; 4; 5; 6; 7; 8]%Z in
  length data = (2 * 1 * 4)%nat ∧ resize data 2 1 2 1 = data.
Proof.
  simpl. split; [reflexivity|].
  apply (proj2 (resize_size_and_identity [1; 2; 3; 4; 5; 6; 7; 8]%Z 2 1 2 1)).
  reflexivity.
Defined.

End ClassifierSpec.

(** ** More on the detector's geometry *)

Module GeometrySpec.
Import Detector CornerSpec DetectorSpec.

(** *** The overlap test on proper boxes *)

(** A box with its corners in order. *)
Definition properBox (b : BBox) : Prop :=
  let '(x1, y1, x2, y2) := b in (x1 <= x2)%Q ∧ (y1 <= y2)%Q.

(** The boxes share no inner point. *)
Definition apartBoxes (a b : BBox) : Prop :=
  let '(ax1, ay1, ax2, ay2) := a in
  let '(bx1, by1, bx2, by2) := b in
  (ax2 <= bx1)%Q ∨ (bx2 <= ax1)%Q ∨ (ay2 <= by1)%Q ∨ (by2 <= ay1)%Q.

(** [a] lies within [b]. *)
Definition withinBox (a b : BBox) : Prop :=
  let '(ax1, ay1, ax2, ay2) := a in
  let '(bx1, by1, bx2, by2) := b in
  (bx1 <= ax1)%Q ∧ (ax2 <= bx2)%Q ∧ (by1 <= ay1)%Q ∧ (ay2 <= by2)%Q.

(** The overlap test treats its two boxes alike.  On proper boxes, two boxes
    that are apart never overlap, whatever the threshold from 0 on; and a
    box of positive area overlaps every box it lies within (itself too), for
    every threshold below 1. *)
Theorem rectanglesOverlap_proper (a b : BBox) (threshold : Q) :
  properBox a → properBox b →
  rectanglesOverlap a b threshold = rectanglesOverlap b a threshold ∧
  (apartBoxes a b → (0 <= threshold)%Q → rectanglesOverlap a b threshold = false) ∧
  (withinBox a b → (0 < boxArea a)%Q → (threshold < 1)%Q →
   rectanglesOverlap a b threshold = true).
Proof.
  intros Ha Hb. split; [apply rectanglesOverlap_comm|].
  destruct a as [[[ax1 ay1] ax2] ay2], b as [[[bx1 by1] bx2] by2].
  unfold properBox in Ha, Hb. destruct Ha as [Hax Hay], Hb as [Hbx Hby].
  rewrite <- not_true_iff_false, rectanglesOverlap_spec.
  unfold apartBoxes, withinBox, smallerArea, intersectionArea, boxArea.
  assert (0 <= (ax2 - ax1) * (ay2 - ay1))%Q as HareaA by nra.
  assert (0 <= (bx2 - bx1) * (by2 - by1))%Q as HareaB by nra.
  set (areaA := ((ax2 - ax1) * (ay2 - ay1))%Q) in *.
  set (areaB := ((bx2 - bx1) * (by2 - by1))%Q) in *.
  split.
  - intros Hapart Ht Hlt.
    assert (0 <= Qmin areaA areaB)%Q as Hmin by by apply Q.min_glb.
    assert (0 <= Qmin areaA areaB * threshold)%Q as Hprod by by apply Qmult_le_0_compat.
    assert (Qmax 0 (Qmin ax2 bx2 - Qmax ax1 bx1) * Qmax 0 (Qmin ay2 by2 - Qmax ay1 by1)
            == 0)%Q as Hzero.
    { destruct Hapart as [H|[H|[H|H]]].
      - rewrite (Q.max_l 0 (Qmin ax2 bx2 - Qmax ax1 bx1)); [ring|].
        pose proof (Q.le_min_l ax2 bx2). pose proof (Q.le_max_r ax1 bx1). lra.
      - rewrite (Q.max_l 0 (Qmin ax2 bx2 - Qmax ax1 bx1)); [ring|].
        pose proof (Q.le_min_r ax2 bx2). pose proof (Q.le_max_l ax1 bx1). lra.
      - rewrite (Q.max_l 0 (Qmin ay2 by2 - Qmax ay1 by1)); [ring|].
        pose proof (Q.le_min_l ay2 by2). pose proof (Q.le_max_r ay1 by1). lra.
      - rewrite (Q.max_l 0 (Qmin ay2 by2 - Qmax ay1 by1)); [ring|].
        pose proof (Q.le_min_r ay2 by2). pose proof (Q.le_max_l ay1 by1). lra. }
    rewrite Hzero in Hlt. lra.
  - intros (H1 & H2 & H3 & H4) Hpos Ht.
    assert (Qmax 0 (Qmin ax2 bx2 - Qmax ax1 bx1) * Qmax 0 (Qmin ay2 by2 - Qmax ay1 by1)
            == areaA)%Q as Hfull.
    { rewrite (Q.min_l ax2 bx2), (Q.max_l ax1 bx1), (Q.min_l ay2 by2),
        (Q.max_l ay1 by1) by done.
      rewrite (Q.max_r 0 (ax2 - ax1)), (Q.max_r 0 (ay2 - ay1)) by lra. reflexivity. }
    rewrite Hfull.
    pose proof (Q.le_min_l areaA areaB) as Hle.
    destruct (Qlt_le_dec threshold 0) as [Hneg|Hnn].
    + assert (0 <= Qmin areaA areaB)%Q as Hmin by by apply Q.min_glb.
      assert (Qmin areaA areaB * threshold <= 0)%Q; [|lra].
      set (m := Qmin areaA areaB) in *. nra.
    + set (m := Qmin areaA areaB) in *.
      assert (m * threshold <= areaA * threshold)%Q by nra.
      assert (areaA * threshold < areaA)%Q by nra. lra.
Qed.

Lemma rectanglesOverlap_proper_witness :
  properBox boxA ∧ properBox boxB ∧
  rectanglesOverlap boxA boxB (4 # 10) = rectanglesOverlap boxB boxA (4 # 10) ∧
  (apartBoxes boxA boxB → (0 <= 4 # 10)%Q → rectanglesOverlap boxA boxB (4 # 10) = false) ∧
  (withinBox boxA boxB → (0 < boxArea boxA)%Q → (4 # 10 < 1)%Q →
   rectanglesOverlap boxA boxB (4 # 10) = true).
Proof.
  assert (properBox boxA) as Ha by (split; by vm_compute).
  assert (properBox boxB) as Hb by (split; by vm_compute).
  split; [exact Ha|]. split; [exact Hb|].
  exact (rectanglesOverlap_proper boxA boxB (4 # 10) Ha Hb).
Defined.

(** *** Reading order *)











(** *** The corners and the box of a detection *)

(** Every region of the output was emitted for a contour of the engine. *)
Lemma detection_origin (cv : option Engine) (imageData : ImageData)
    (out : list CardDetection.t) (d : CardDetection.t) :
  detectCardsOpenCV cv imageData = Normal out → d ∈ out →
  ∃ (imgRows imgCols : Z) (scale imgArea : Q) (c : Contour),
    examineContour imgRows imgCols scale imgArea c = Normal (Some d).
Proof.
  intros Hrun Hd.
  destruct cv as [e|]; [|injection Hrun as <-; by apply elem_of_nil in Hd].
  apply detectCardsOpenCV_run in Hrun
    as (imgRows & imgCols & scale & imgArea & found & Hfound & ->).
  rewrite sortCards_perm in Hd.
  apply addDetections_from in Hd as [Hd|Hd]; [by apply elem_of_nil in Hd|].
  apply list_elem_of_In, in_concat in Hd as (ds & Hds & Hd).
  apply list_elem_of_In in Hds, Hd.
  apply list_elem_of_lookup in Hds as [i Hi].
  destruct (Forall2_lookup_r _ _ _ _ _ Hfound Hi) as (params & _ & Hdetect).
  destruct (detectWithStrategy_elem _ _ _ _ _ _ _ _ _ Hdetect Hd)
    as (contours & c & _ & _ & Hex).
  by exists imgRows, imgCols, scale, imgArea, c.
Qed.

(** What an emitted detection is made of: its corners are the ordered
    corners, all defined, and its box is their bounding box. *)
Lemma examineContour_shape (imgRows imgCols : Z) (scale imgArea : Q)
    (c : Contour) (d : CardDetection.t) :
  examineContour imgRows imgCols scale imgArea c = Normal (Some d) →
  ∃ pts,
    mapM (λ p : option Point, p) (orderCorners pts) = Some (CardDetection.corners d) ∧
    CardDetection.bbox d
    = (minOf (x <$> CardDetection.corners d), minOf (y <$> CardDetection.corners d),
       maxOf (x <$> CardDetection.corners d), maxOf (y <$> CardDetection.corners d)).
Proof.
  unfold examineContour.
  destruct (Qltb (area c) _); [discriminate|].
  destruct (Qgtb (area c) _); [discriminate|].
  destruct (Qle_bool (rectWidth c * rectHeight c) 1); [discriminate|].
  destruct (Qltb (area c / _) (60 # 100)); [discriminate|].
  destruct (_ || _); [discriminate|].
  destruct (Qltb (satStd c) 8); [discriminate|].
  match goal with |- context [orderCorners ?l] => set (pts := l) end.
  destruct (mapM _ (orderCorners pts)) as [ordered|] eqn:Hordered; [|discriminate].
  destruct (if Qeq_bool _ 0 then _ else _); [discriminate|].
  intros [= <-]. simpl. by exists pts.
Qed.

Lemma minOf_le (values : list Q) (v : Q) : v ∈ values → (minOf values <= v)%Q.
Proof.
  intros Hv.
  destruct (extremum_spec Qmin Qle Qmin_either Q.le_min_l Q.le_min_r Qle_refl Qle_trans
              values) as (m & Hm & _ & Hall).
  { intros ->. by apply elem_of_nil in Hv. }
  unfold minOf, mathMin. rewrite Hm. simpl. by apply Hall.
Qed.

Lemma maxOf_ge (values : list Q) (v : Q) : v ∈ values → (v <= maxOf values)%Q.
Proof.
  intros Hv.
  destruct (extremum_spec Qmax (λ a b, b <= a)%Q Qmax_either Q.le_max_l Q.le_max_r
              Qle_refl (λ a b c Hab Hbc, Qle_trans _ _ _ Hbc Hab) values)
    as (m & Hm & _ & Hall).
  { intros ->. by apply elem_of_nil in Hv. }
  unfold maxOf, mathMax. rewrite Hm. simpl. by apply Hall.
Qed.

(** Every region the detector returns has exactly four corners, its box has
    its corners in order, and each of the four corners lies within the
    box. *)
Theorem detection_corners_in_box (cv : option Engine) (imageData : ImageData)
    (out : list CardDetection.t) (d : CardDetection.t) :
  detectCardsOpenCV cv imageData = Normal out → d ∈ out →
  length (CardDetection.corners d) = 4%nat ∧
  ∃ x1 y1 x2 y2,
    CardDetection.bbox d = (x1, y1, x2, y2) ∧
    (x1 <= x2)%Q ∧ (y1 <= y2)%Q ∧
    ∀ p, p ∈ CardDetection.corners d →
         (x1 <= x p)%Q ∧ (x p <= x2)%Q ∧ (y1 <= y p)%Q ∧ (y p <= y2)%Q.
Proof.
  intros Hrun Hd.
  destruct (detection_origin cv imageData out d Hrun Hd)
    as (imgRows & imgCols & scale & imgArea & c & Hex).
  apply examineContour_shape in Hex as (pts & Hordered & Hbox).
  assert (length (CardDetection.corners d) = 4%nat) as Hlen.
  { apply length_mapM in Hordered. by rewrite <- Hordered. }
  split; [done|].
  eexists _, _, _, _. split; [exact Hbox|].
  assert (∀ p, p ∈ CardDetection.corners d →
            (minOf (x <$> CardDetection.corners d) <= x p)%Q ∧
            (x p <= maxOf (x <$> CardDetection.corners d))%Q ∧
            (minOf (y <$> CardDetection.corners d) <= y p)%Q ∧
            (y p <= maxOf (y <$> CardDetection.corners d))%Q) as Hin.
  { intros p Hp. split_and?.
    - by apply minOf_le, list_elem_of_fmap_2.
    - by apply maxOf_ge, list_elem_of_fmap_2.
    - by apply minOf_le, list_elem_of_fmap_2.
    - by apply maxOf_ge, list_elem_of_fmap_2. }
  destruct (CardDetection.corners d) as [|p0 rest] eqn:Hc; [discriminate|].
  destruct (Hin p0 (list_elem_of_here _ _)) as (? & ? & ? & ?).
  split_and?; [lra|lra|done].
Qed.

Lemma detection_corners_in_box_witness :
  ∃ a b,
    detectCardsOpenCV (Some twoCardEngine) frame1000 = Normal [a; b] ∧
    a ∈ [a; b] ∧
    length (CardDetection.corners a) = 4%nat ∧
    ∃ x1 y1 x2 y2,
      CardDetection.bbox a = (x1, y1, x2, y2) ∧
      (x1 <= x2)%Q ∧ (y1 <= y2)%Q ∧
      ∀ p, p ∈ CardDetection.corners a →
           (x1 <= x p)%Q ∧ (x p <= x2)%Q ∧ (y1 <= y p)%Q ∧ (y p <= y2)%Q.
Proof.
  eexists _, _.
  assert (detectCardsOpenCV (Some twoCardEngine) frame1000 = Normal [_; _]) as Hrun
    by (vm_compute; reflexivity).
  split; [exact Hrun|]. split; [apply list_elem_of_here|].
  exact (detection_corners_in_box (Some twoCardEngine) frame1000 _ _
           Hrun (list_elem_of_here _ _)).
Defined.

(** *** Rectification *)

(** The top edge is not longer than the left edge. *)
Definition portrait (src : list Point) : Prop :=
  match src with
  | [tl; tr; br; bl] => (sqDist tl tr <= sqDist tl bl)%Q
  | _ => False
  end.

(** Opposite sides are equal as vectors (a rectangle is such). *)
Definition parallelogram (tl tr br bl : Point) : Prop :=
  (x tr - x tl == x br - x bl)%Q ∧ (y tr - y tl == y br - y bl)%Q.

(** With an engine, the corners handed to the perspective warp are the four
    given corners, turned by one position exactly when the top edge is
    longer than the left edge; corners after the fourth are ignored.  When
    the four corners form a parallelogram, the corners handed over are in
    portrait. *)
Theorem warp_source_corners (cv : Engine) (imageData : ImageData)
    (tl tr br bl : Point) (more : list Point) (outW outH : Z) :
  ∃ src,
    warpCardToImageData (Some cv) imageData (tl :: tr :: br :: bl :: more) outW outH
    = (result ← warpPerspective cv imageData src outW outH; mret (Some result)) ∧
    (((sqDist tl tr <= sqDist tl bl)%Q ∧ src = [tl; tr; br; bl])
     ∨ ((sqDist tl bl < sqDist tl tr)%Q ∧ src = [bl; tl; tr; br])) ∧
    (parallelogram tl tr br bl → portrait src).
Proof.
  simpl. destruct (Qgtb (sqDist tl tr) (sqDist tl bl)) eqn:Hcmp.
  - apply ClassifierSpec.Qgtb_gt in Hcmp.
    exists [bl; tl; tr; br]. split; [done|]. split; [by right|].
    intros [Hx Hy]. simpl. unfold sqDist in *. rewrite <- Hx, <- Hy. nra.
  - apply ClassifierSpec.Qgtb_le in Hcmp.
    exists [tl; tr; br; bl]. split; [done|]. split; [by left|]. by intros _.
Qed.

(** With an engine, rectification throws when fewer than four corners are
    given, and it never returns null. *)
Theorem warp_needs_four_corners (cv : Engine) (imageData : ImageData)
    (corners : list Point) (outW outH : Z) :
  ((length corners < 4)%nat →
   warpCardToImageData (Some cv) imageData corners outW outH = Throws) ∧
  warpCardToImageData (Some cv) imageData corners outW outH ≠ Normal None.
Proof.
  split.
  - intros Hlen. simpl.
    destruct corners as [|a [|b [|c [|d rest]]]]; simpl in *; try done; lia.
  - intros Hnull. by apply warpCardToImageData_null in Hnull.
Qed.

(** *** Corners of an upright rectangle *)

(** Whatever the order in which the four corners of an upright rectangle
    (sides along the axes, of positive length) are given, [orderCorners]
    returns them as top-left, top-right, bottom-right, bottom-left. *)
Theorem orderCorners_upright (x0 y0 x1 y1 : Q) (pts : list Point) :
  (x0 < x1)%Q → (y0 < y1)%Q →
  pts ≡ₚ [ {| x := x0; y := y0 |}; {| x := x1; y := y0 |};
           {| x := x1; y := y1 |}; {| x := x0; y := y1 |} ] →
  orderCorners pts
  = [ Some {| x := x0; y := y0 |}; Some {| x := x1; y := y0 |};
      Some {| x := x1; y := y1 |}; Some {| x := x0; y := y1 |} ].
Proof.
  intros Hx Hy Hperm.
  set (tl := {| x := x0; y := y0 |}) in *. set (tr := {| x := x1; y := y0 |}) in *.
  set (br := {| x := x1; y := y1 |}) in *. set (bl := {| x := x0; y := y1 |}) in *.
  assert (pts ≠ []) as Hne.
  { intros ->. by apply Permutation_nil_l in Hperm. }
  assert (∀ p, p ∈ [tl; tr; br; bl] → p ∈ pts) as Hin by (intros p; by rewrite Hperm).
  destruct (lowest_selected sumKey pts Hne) as (p1 & E1 & H1).
  destruct (lowest_selected diffKey pts Hne) as (p2 & E2 & H2).
  destruct (highest_selected sumKey pts Hne) as (p3 & E3 & H3).
  destruct (highest_selected diffKey pts Hne) as (p4 & E4 & H4).
  assert (p1 = tl) as ->.
  { apply (lowest_unique sumKey pts tl); [apply Hin, list_elem_of_here| |done|].
    - rewrite Hperm. unfold sumKey.
      repeat (apply Forall_cons_2;
        [first [by left | right; unfold tl, tr, br, bl; simpl; lra]|]); apply Forall_nil_2.
    - split; [apply Hin, list_elem_of_here|]. intros q Hq. rewrite Hperm in Hq.
      unfold sumKey. set_unfold. destruct Hq as [->|[->|[->|[->|[]]]]];
        unfold tl, tr, br, bl; simpl; lra. }
  assert (p2 = tr) as ->.
  { apply (lowest_unique diffKey pts tr);
      [apply Hin, list_elem_of_further, list_elem_of_here| |done|].
    - rewrite Hperm. unfold diffKey.
      repeat (apply Forall_cons_2;
        [first [by left | right; unfold tl, tr, br, bl; simpl; lra]|]); apply Forall_nil_2.
    - split; [apply Hin, list_elem_of_further, list_elem_of_here|].
      intros q Hq. rewrite Hperm in Hq.
      unfold diffKey. set_unfold. destruct Hq as [->|[->|[->|[->|[]]]]];
        unfold tl, tr, br, bl; simpl; lra. }
  assert (p3 = br) as ->.
  { apply (highest_unique sumKey pts br);
      [apply Hin; do 2 apply list_elem_of_further; apply list_elem_of_here| |done|].
    - rewrite Hperm. unfold sumKey.
      repeat (apply Forall_cons_2;
        [first [by left | right; unfold tl, tr, br, bl; simpl; lra]|]); apply Forall_nil_2.
    - split; [apply Hin; do 2 apply list_elem_of_further; apply list_elem_of_here|].
      intros q Hq. rewrite Hperm in Hq.
      unfold sumKey. set_unfold. destruct Hq as [->|[->|[->|[->|[]]]]];
        unfold tl, tr, br, bl; simpl; lra. }
  assert (p4 = bl) as ->.
  { apply (highest_unique diffKey pts bl);
      [apply Hin; do 3 apply list_elem_of_further; apply list_elem_of_here| |done|].
    - rewrite Hperm. unfold diffKey.
      repeat (apply Forall_cons_2;
        [first [by left | right; unfold tl, tr, br, bl; simpl; lra]|]); apply Forall_nil_2.
    - split; [apply Hin; do 3 apply list_elem_of_further; apply list_elem_of_here|].
      intros q Hq. rewrite Hperm in Hq.
      unfold diffKey. set_unfold. destruct Hq as [->|[->|[->|[->|[]]]]];
        unfold tl, tr, br, bl; simpl; lra. }
  unfold orderCorners.
  change (λ p, x p + y p)%Q with sumKey. change (λ p, y p - x p)%Q with diffKey.
  by rewrite E1, E2, E3, E4.
Qed.

Lemma orderCorners_upright_witness :
  (100 < 200)%Q ∧ (100 < 250)%Q ∧
  [ {| x := 200; y := 250 |}; {| x := 100; y := 100 |};
    {| x := 100; y := 250 |}; {| x := 200; y := 100 |} ]
  ≡ₚ [ {| x := 100; y := 100 |}; {| x := 200; y := 100 |};
       {| x := 200; y := 250 |}; {| x := 100; y := 250 |} ] ∧
  orderCorners [ {| x := 200; y := 250 |}; {| x := 100; y := 100 |};
                 {| x := 100; y := 250 |}; {| x := 200; y := 100 |} ]
  = [ Some {| x := 100; y := 100 |}; Some {| x := 200; y := 100 |};
      Some {| x := 200; y := 250 |}; Some {| x := 100; y := 250 |} ].
Proof.
  assert ([ {| x := 200; y := 250 |}; {| x := 100; y := 100 |};
            {| x := 100; y := 250 |}; {| x := 200; y := 100 |} ]
          ≡ₚ [ {| x := 100; y := 100 |}; {| x := 200; y := 100 |};
               {| x := 200; y := 250 |}; {| x := 100; y := 250 |} ]) as Hperm.
  { etransitivity; [apply perm_swap|]. apply perm_skip.
    exact (Permutation_app_comm
             [ {| x := 200; y := 250 |}; {| x := 100; y := 250 |} ]
             [ {| x := 200; y := 100 |} ]). }
  assert (100 < 200)%Q as Hx by reflexivity.
  assert (100 < 250)%Q as Hy by reflexivity.
  split; [exact Hx|]. split; [exact Hy|]. split; [exact Hperm|].
  exact (orderCorners_upright 100 100 200 250 _ Hx Hy Hperm).
Defined.

(** *** Merging what is already merged *)

Lemma addDetections_apart_id (acc l : list CardDetection.t) :
  apart (acc ++ l) → addDetections acc l = (acc ++ l)%list.
Proof.
  revert acc. induction l as [|d l IH]; intros acc Hap.
  { by rewrite app_nil_r. }
  rewrite addDetections_cons. unfold mergeStep.
  assert (existsb (λ existing, overlapping existing d) acc = false) as ->.
  { apply not_true_iff_false. intros Hex.
    apply existsb_exists in Hex as (e & He & Hov).
    apply list_elem_of_In, list_elem_of_lookup in He as [i Hi].
    rewrite (Hap i (length acc) e d) in Hov; [done| | |].
    - by apply lookup_lt_Some in Hi.
    - by apply lookup_app_l_Some.
    - by rewrite list_lookup_middle. }
  rewrite IH; rewrite <- app_assoc; done.
Qed.

(** Merging again the regions that a merge kept changes nothing: no region
    is dropped, and the order stays. *)
Theorem addDetections_idempotent (detections : list CardDetection.t) :
  addDetections [] (addDetections [] detections) = addDetections [] detections.
Proof.
  apply (addDetections_apart_id []). simpl.
  apply addDetections_apart, apart_nil.
Qed.

(** A region lying on its side: the corners are turned. *)
Lemma warp_source_corners_witness :
  let tl := {| x := 0; y := 0 |} in
  let tr := {| x := 4; y := 0 |} in
  let br := {| x := 4; y := 2 |} in
  let bl := {| x := 0; y := 2 |} in
  parallelogram tl tr br bl ∧
  ∃ src,
    warpCardToImageData (Some DetectorSpec.twoCardEngine) DetectorSpec.frame1000
                        [tl; tr; br; bl] 200 300
    = (result ← warpPerspective DetectorSpec.twoCardEngine DetectorSpec.frame1000
                                src 200 300;
       mret (Some result)) ∧
    src = [bl; tl; tr; br] ∧ portrait src.
Proof.
  intros tl tr br bl.
  assert (parallelogram tl tr br bl) as Hpar by (split; reflexivity).
  split; [exact Hpar|].
  destruct (warp_source_corners DetectorSpec.twoCardEngine DetectorSpec.frame1000
              tl tr br bl [] 200 300) as (src & Heq & Hcase & Hport).
  exists src. split; [exact Heq|]. split; [|exact (Hport Hpar)].
  destruct Hcase as [[Hle _]|[_ Hsrc]]; [|exact Hsrc].
  exfalso. revert Hle. vm_compute. intros Hle. apply Hle. reflexivity.
Defined.

Lemma warp_needs_four_corners_witness :
  let corners := [ {| x := 0; y := 0 |}; {| x := 4; y := 0 |}; {| x := 4; y := 2 |} ] in
  (length corners < 4)%nat ∧
  warpCardToImageData (Some DetectorSpec.twoCardEngine) DetectorSpec.frame1000
                      corners 200 300 = Throws.
Proof.
  simpl length. split; [lia|].
  apply (proj1 (warp_needs_four_corners DetectorSpec.twoCardEngine DetectorSpec.frame1000
                  [ {| x := 0; y := 0 |}; {| x := 4; y := 0 |}; {| x := 4; y := 2 |} ]
                  200 300)).
  simpl. lia.
Defined.

End GeometrySpec.

(** ** More on the frame pipeline *)

(** ** Rounding to a double *)

Module DoubleSpec.
Import Double.

Lemma roundHalfEven_floor (x : Q) :
  roundHalfEven x = Qfloor x ∨ roundHalfEven x = (Qfloor x + 1)%Z.
Proof.
  unfold roundHalfEven. destruct (Qltb _ _); [by left|].
  destruct (Qltb _ _); [by right|]. destruct (Z.even _); [by left|by right].
Qed.

Lemma roundHalfEven_mono (x y : Q) :
  (x <= y)%Q → (roundHalfEven x <= roundHalfEven y)%Z.
Proof.
  intros Hxy. pose proof (Qfloor_resp_le x y Hxy) as Hf.
  destruct (Z.eq_dec (Qfloor x) (Qfloor y)) as [Heq|Hne].
  - unfold roundHalfEven. rewrite <- Heq.
    destruct (Qltb (x - inject_Z (Qfloor x)) (1 # 2)) eqn:Hx1.
    + destruct (Qltb (y - _) _); [lia|]. destruct (Qltb _ (y - _)); [lia|].
      destruct (Z.even _); lia.
    + apply DetectorSpec.Qltb_ge in Hx1.
      destruct (Qltb (y - inject_Z (Qfloor x)) (1 # 2)) eqn:Hy1.
      { apply DetectorSpec.Qltb_lt in Hy1. lra. }
      destruct (Qltb (1 # 2) (x - inject_Z (Qfloor x))) eqn:Hx2.
      * apply DetectorSpec.Qltb_lt in Hx2.
        assert (Qltb (1 # 2) (y - inject_Z (Qfloor x)) = true) as ->
          by (apply DetectorSpec.Qltb_lt; lra).
        lia.
      * destruct (Qltb (1 # 2) (y - inject_Z (Qfloor x))); destruct (Z.even _); lia.
  - destruct (roundHalfEven_floor x) as [-> | ->], (roundHalfEven_floor y) as [-> | ->];
      lia.
Qed.

Lemma roundHalfEven_Z (z : Z) : roundHalfEven (inject_Z z) = z.
Proof.
  unfold roundHalfEven. rewrite Qfloor_Z.
  assert (Qltb (inject_Z z - inject_Z z) (1 # 2) = true) as ->; [|done].
  apply DetectorSpec.Qltb_lt. lra.
Qed.

Lemma two_pow_pos (e : Z) : (0 < 2 ^ e)%Q.
Proof. by apply Qpower_0_lt. Qed.

Lemma two_pow_succ (e : Z) : (2 ^ (e + 1) == 2 * 2 ^ e)%Q.
Proof. rewrite Qpower_plus by done. simpl (2 ^ 1)%Q. lra. Qed.

Lemma floorLog2_spec (x : Q) :
  (0 < x)%Q → (2 ^ floorLog2 x <= x)%Q ∧ (x < 2 ^ (floorLog2 x + 1))%Q.
Proof.
  intros Hx. unfold floorLog2.
  destruct x as [n d]. simpl Qnum. simpl Qden.
  assert (0 < n)%Z as Hn by (unfold Qlt in Hx; simpl in Hx; lia).
  set (a := Z.log2 n). set (b := Z.log2 (Z.pos d)).
  destruct (Z.log2_spec n Hn) as [Ha1 Ha2]. fold a in Ha1, Ha2.
  destruct (Z.log2_spec (Z.pos d) (Pos2Z.is_pos d)) as [Hb1 Hb2]. fold b in Hb1, Hb2.
  assert (0 <= a)%Z as Ha0 by apply Z.log2_nonneg.
  assert (0 <= b)%Z as Hb0 by apply Z.log2_nonneg.
  set (p := (2 ^ (a - b))%Q).
  pose proof (two_pow_pos (a - b)) as Hp. fold p in Hp.
  set (A := (2 ^ a)%Q). set (B := (2 ^ b)%Q).
  assert (p * B == A)%Q as HpB.
  { unfold p, A, B. rewrite <- Qpower_plus by done. by replace (a - b + b)%Z with a by lia. }
  assert (A <= inject_Z n)%Q as HA1.
  { unfold A. change 2%Q with (inject_Z 2). rewrite <- Zpower_Qpower by done.
    by rewrite <- Zle_Qle. }
  assert (inject_Z n < 2 * A)%Q as HA2.
  { unfold A. rewrite <- two_pow_succ. change 2%Q with (inject_Z 2).
    rewrite <- Zpower_Qpower by lia. rewrite <- Zlt_Qlt. by rewrite <- Z.add_1_r in Ha2. }
  assert (B <= inject_Z (Z.pos d))%Q as HB1.
  { unfold B. change 2%Q with (inject_Z 2). rewrite <- Zpower_Qpower by done.
    by rewrite <- Zle_Qle. }
  assert (inject_Z (Z.pos d) < 2 * B)%Q as HB2.
  { unfold B. rewrite <- two_pow_succ. change 2%Q with (inject_Z 2).
    rewrite <- Zpower_Qpower by lia. rewrite <- Zlt_Qlt. by rewrite <- Z.add_1_r in Hb2. }
  assert (0 < B)%Q as HB0 by apply two_pow_pos.
  assert ((n # d) * inject_Z (Z.pos d) == inject_Z n)%Q as Hnd.
  { rewrite (Qmake_Qdiv n d). field. unfold Qeq. simpl. lia. }
  set (x := n # d) in *. set (D := inject_Z (Z.pos d)) in *. set (N := inject_Z n) in *.
  destruct (Qle_bool p x) eqn:Hle.
  - apply Qle_bool_iff in Hle. split; [done|].
    rewrite two_pow_succ. fold p.
    apply Qnot_le_lt. intros Hge. nra.
  - replace (a - b - 1 + 1)%Z with (a - b)%Z by lia. fold p.
    assert (x < p)%Q as Hlt.
    { apply Qnot_le_lt. intros H. apply Qle_bool_iff in H. congruence. }
    split; [|done].
    assert (2 * 2 ^ (a - b - 1) == p)%Q as Hhalf.
    { rewrite <- two_pow_succ. unfold p. by replace (a - b - 1 + 1)%Z with (a - b)%Z by lia. }
    set (h := (2 ^ (a - b - 1))%Q) in *.
    apply Qnot_lt_le. intros Hh. nra.
Qed.

Lemma floorLog2_mono (x y : Q) :
  (0 < x)%Q → (x <= y)%Q → (floorLog2 x <= floorLog2 y)%Z.
Proof.
  intros Hx Hxy.
  destruct (floorLog2_spec x Hx) as [Hx1 _].
  destruct (floorLog2_spec y) as [_ Hy2]; [lra|].
  apply Z.lt_succ_r. rewrite <- Z.add_1_r.
  apply (Qpower_lt_compat_l_inv 2); [lra|reflexivity].
Qed.

Lemma floorLog2_unique (x : Q) (l : Z) :
  (2 ^ l <= x)%Q → (x < 2 ^ (l + 1))%Q → floorLog2 x = l.
Proof.
  intros H1 H2.
  assert (0 < x)%Q as Hx by (pose proof (two_pow_pos l); lra).
  destruct (floorLog2_spec x Hx) as [Hs1 Hs2].
  assert (floorLog2 x < l + 1)%Z
    by (apply (Qpower_lt_compat_l_inv 2); [lra|reflexivity]).
  assert (l < floorLog2 x + 1)%Z
    by (apply (Qpower_lt_compat_l_inv 2); [lra|reflexivity]).
  lia.
Qed.

Lemma two_pow_Z (n : Z) : (0 <= n)%Z → (2 ^ n == inject_Z (2 ^ n))%Q.
Proof. intros Hn. change 2%Q with (inject_Z 2). by rewrite Zpower_Qpower. Qed.

Lemma roundPositive_lower (x : Q) :
  (0 < x)%Q → (-1074 < lastBit x)%Z → (2 ^ (lastBit x + 52) <= roundPositive x)%Q.
Proof.
  intros Hx He. unfold roundPositive.
  set (e := lastBit x) in *.
  assert (e = floorLog2 x - 52)%Z as Hel by (unfold e, lastBit in *; lia).
  destruct (floorLog2_spec x Hx) as [Hlow _].
  replace (floorLog2 x) with (e + 52)%Z in Hlow by lia.
  rewrite Qpower_plus in Hlow |- * by done.
  pose proof (two_pow_pos e) as Hpe.
  rewrite (Qmult_comm (2 ^ e)). apply Qmult_le_compat_r; [|lra].
  rewrite (two_pow_Z 52) by done. rewrite <- Zle_Qle.
  rewrite <- (roundHalfEven_Z (2 ^ 52)) at 1. apply roundHalfEven_mono.
  rewrite <- (two_pow_Z 52) by done.
  apply Qle_shift_div_l; [done|]. by rewrite Qmult_comm.
Qed.

Lemma roundPositive_upper (x : Q) :
  (0 < x)%Q → (roundPositive x <= 2 ^ (lastBit x + 53))%Q.
Proof.
  intros Hx. unfold roundPositive.
  set (e := lastBit x) in *.
  assert (floorLog2 x + 1 <= e + 53)%Z as Hel by (unfold e, lastBit; lia).
  destruct (floorLog2_spec x Hx) as [_ Hup].
  assert (x <= 2 ^ (e + 53))%Q as Hup'.
  { eapply Qle_trans; [apply Qlt_le_weak, Hup|].
    by apply Qpower_le_compat_l. }
  rewrite Qpower_plus in Hup' |- * by done.
  pose proof (two_pow_pos e) as Hpe.
  rewrite (Qmult_comm (2 ^ e)). apply Qmult_le_compat_r; [|lra].
  rewrite (two_pow_Z 53) by done. rewrite <- Zle_Qle.
  transitivity (roundHalfEven (inject_Z (2 ^ 53))); [|by rewrite roundHalfEven_Z].
  apply roundHalfEven_mono. rewrite <- (two_pow_Z 53) by done.
  apply Qle_shift_div_r; [done|]. by rewrite Qmult_comm.
Qed.

Lemma roundPositive_mono (x y : Q) :
  (0 < x)%Q → (x <= y)%Q → (roundPositive x <= roundPositive y)%Q.
Proof.
  intros Hx Hxy.
  assert (0 < y)%Q as Hy by lra.
  pose proof (floorLog2_mono x y Hx Hxy) as Hl.
  assert (lastBit x <= lastBit y)%Z as He by (unfold lastBit; lia).
  destruct (Z.eq_dec (lastBit x) (lastBit y)) as [Heq|Hne].
  - unfold roundPositive. rewrite <- Heq.
    pose proof (two_pow_pos (lastBit x)) as Hpe.
    apply Qmult_le_compat_r; [|lra].
    rewrite <- Zle_Qle. apply roundHalfEven_mono.
    apply Qmult_le_compat_r; [done|]. apply Qlt_le_weak. by apply Qinv_lt_0_compat.
  - eapply Qle_trans; [by apply roundPositive_upper|].
    eapply Qle_trans; [|apply roundPositive_lower; [done|unfold lastBit in *; lia]].
    apply Qpower_le_compat_l; [lia|done].
Qed.

Lemma roundPositive_nonneg (x : Q) : (0 < x)%Q → (0 <= roundPositive x)%Q.
Proof.
  intros Hx. unfold roundPositive.
  pose proof (two_pow_pos (lastBit x)) as Hpe.
  assert (0 <= roundHalfEven (x / 2 ^ lastBit x))%Z as Hz.
  { transitivity (roundHalfEven (inject_Z 0)); [by rewrite roundHalfEven_Z|].
    apply roundHalfEven_mono. apply Qlt_le_weak, Qlt_shift_div_l; [done|].
    change (inject_Z 0) with 0%Q. lra. }
  apply Qmult_le_0_compat; [|lra].
  change 0%Q with (inject_Z 0). by rewrite <- Zle_Qle.
Qed.

Lemma round_positive (x : Q) : (0 < x)%Q → round x = roundPositive x.
Proof.
  destruct x as [[|n|n] d]; unfold Qlt; simpl; intros H; try lia. reflexivity.
Qed.

Lemma round_zero (x : Q) : (x == 0)%Q → round x = 0%Q.
Proof.
  destruct x as [[|n|n] d]; unfold Qeq; simpl; intros H; try lia. reflexivity.
Qed.

(** Rounding keeps the order of numbers that are not negative. *)
Lemma round_mono (x y : Q) : (0 <= x)%Q → (x <= y)%Q → (round x <= round y)%Q.
Proof.
  intros Hx Hxy.
  destruct (Qlt_le_dec 0 x) as [Hpos|Hzero].
  - rewrite !round_positive by lra. by apply roundPositive_mono.
  - rewrite (round_zero x) by lra.
    destruct (Qlt_le_dec 0 y) as [Hy|Hy].
    + rewrite round_positive by done. by apply roundPositive_nonneg.
    + rewrite (round_zero y) by lra. lra.
Qed.

(** The largest double below 1. *)
Definition belowOne : Q := 1 - 2 ^ (-53).

(** A double below 1 is at most [belowOne]. *)
Lemma double_below_one (r : Q) :
  (round r == r)%Q → (r < 1)%Q → (r <= belowOne)%Q.
Proof.
  intros Hr Hlt. apply Qnot_lt_le. intros Hgt.
  assert (1 # 2 < r)%Q as Hhalf.
  { eapply Qlt_trans; [|exact Hgt]. by vm_compute. }
  assert (floorLog2 r = -1)%Z as Hl.
  { apply floorLog2_unique; [|exact Hlt]. apply Qlt_le_weak. exact Hhalf. }
  rewrite round_positive in Hr by lra.
  unfold roundPositive, lastBit in Hr. rewrite Hl in Hr.
  change ((-1 - 52) `max` (-1074))%Z with (-53)%Z in Hr.
  set (t := (r / 2 ^ (-53))%Q) in *.
  assert (inject_Z (2 ^ 53 - 1) < t)%Q as Ht1.
  { unfold t. apply Qlt_shift_div_l; [by vm_compute|].
    unfold belowOne in Hgt. eapply Qle_lt_trans; [|exact Hgt]. by vm_compute. }
  assert (t < inject_Z (2 ^ 53))%Q as Ht2.
  { unfold t. apply Qlt_shift_div_r; [by vm_compute|].
    eapply Qlt_le_trans; [exact Hlt|]. by vm_compute. }
  assert (Qfloor t = 2 ^ 53 - 1)%Z as Hfl.
  { pose proof (Qfloor_le t) as H1. pose proof (Qlt_floor t) as H2.
    assert (Qfloor t < 2 ^ 53)%Z by (rewrite Zlt_Qlt; lra).
    assert (2 ^ 53 - 1 < Qfloor t + 1)%Z by (rewrite Zlt_Qlt; lra).
    lia. }
  assert (r == t * 2 ^ (-53))%Q as Hrt.
  { unfold t. field. by vm_compute. }
  assert (0 < 2 ^ (-53))%Q as Hp by apply two_pow_pos.
  destruct (roundHalfEven_floor t) as [Hrhe|Hrhe]; rewrite Hrhe, Hfl in Hr.
  - assert (inject_Z (2 ^ 53 - 1) * 2 ^ (-53) < t * 2 ^ (-53))%Q
      by (apply Qmult_lt_compat_r; done).
    lra.
  - replace (2 ^ 53 - 1 + 1)%Z with (2 ^ 53)%Z in Hr by lia.
    assert (t * 2 ^ (-53) < inject_Z (2 ^ 53) * 2 ^ (-53))%Q
      by (apply Qmult_lt_compat_r; done).
    lra.
Qed.

(** A double: rounding leaves it as it is. *)
Definition isDouble (q : Q) : Prop := (round q == q)%Q.

End DoubleSpec.

Module PipelineSpec.
Import Solver Detector Hook HookSpec.

(** *** Mock cards *)

Lemma floor_in_table (q : Q) :
  (0 <= q)%Q → (q < 3)%Q → SolverSpec.inTable (Qfloor q).
Proof.
  intros H0 H1. unfold SolverSpec.inTable. split.
  - change 0%Z with (Qfloor 0). by apply Qfloor_resp_le.
  - pose proof (Qfloor_le q) as Hle.
    assert (inject_Z (Qfloor q) < inject_Z 3)%Q as Hlt
      by (change (inject_Z 3) with 3%Q; lra).
    by rewrite <- Zlt_Qlt in Hlt.
Qed.

Lemma tableAt_is_Some {T} (table : list T) (idx : Z) :
  length table = 3%nat → SolverSpec.inTable idx → is_Some (tableAt table idx).
Proof.
  intros Hlen Hin. destruct (SolverSpec.tableAt_in table idx Hlen Hin) as (v & _ & ->).
  by eexists.
Qed.

(** [Math.floor(Math.random() * 3)] is 0, 1 or 2: the rounded product stays
    below 3. *)
Lemma random_index (r : Q) :
  (0 <= r)%Q → (r <= DoubleSpec.belowOne)%Q → SolverSpec.inTable (Qfloor (Double.mul r 3)).
Proof.
  intros H0 H1. unfold Double.mul. apply floor_in_table.
  - change 0%Q with (Double.round 0) at 1. apply DoubleSpec.round_mono; lra.
  - eapply Qle_lt_trans; [apply (DoubleSpec.round_mono _ (DoubleSpec.belowOne * 3)); lra|].
    by vm_compute.
Qed.

(** [0.9 + Math.random() * 0.1] lies between 0.9 and 1, 1 included. *)
Lemma random_confidence (r : Q) :
  (0 <= r)%Q → (r <= DoubleSpec.belowOne)%Q →
  let confidence :=
    Double.add (Double.round (9 # 10)) (Double.mul r (Double.round (1 # 10))) in
  (9 # 10 <= confidence)%Q ∧ (confidence <= 1)%Q.
Proof.
  intros H0 H1. simpl. unfold Double.add, Double.mul.
  set (tenth := Double.round (1 # 10)). set (nine := Double.round (9 # 10)).
  assert (0 < tenth)%Q as Htenth by by vm_compute.
  assert (0 < nine)%Q as Hnine by by vm_compute.
  assert (0 <= r * tenth)%Q as Hprod by nra.
  assert (r * tenth <= DoubleSpec.belowOne * tenth)%Q as Hprod' by nra.
  pose proof (DoubleSpec.round_mono 0 (r * tenth) ltac:(lra) Hprod) as Hlow.
  change (Double.round 0) with 0%Q in Hlow.
  pose proof (DoubleSpec.round_mono _ _ Hprod Hprod') as Hhigh.
  set (m := Double.round (r * tenth)) in *.
  set (most := Double.round (DoubleSpec.belowOne * tenth)) in *.
  split.
  - eapply Qle_trans; [|apply (DoubleSpec.round_mono nine (nine + m)); lra].
    by vm_compute.
  - eapply Qle_trans; [apply (DoubleSpec.round_mono (nine + m) (nine + most)); lra|].
    by vm_compute.
Qed.

(** When [Math.random()] gives doubles in [0,1), as it does, the mock cards
    are twelve cards with ids 0 to 11 in order, no corners, four defined
    properties each, and a confidence from 0.9 up to 1, 1 included. *)
Theorem generateMockCards_valid (random : nat → Q) :
  (∀ n, DoubleSpec.isDouble (random n) ∧ (0 <= random n)%Q ∧ (random n < 1)%Q) →
  id <$> generateMockCards random = seq 0 12 ∧
  ∀ c : Card, c ∈ generateMockCards random →
    corners c = None ∧ SolverSpec.wellFormed c ∧
    (9 # 10 <= confidence c)%Q ∧ (confidence c <= 1)%Q.
Proof.
  intros Hrandom.
  assert (∀ n, (0 <= random n)%Q ∧ (random n <= DoubleSpec.belowOne)%Q) as Hr.
  { intros n. destruct (Hrandom n) as (Hd & H0 & H1).
    split; [done|]. by apply DoubleSpec.double_below_one. }
  split; [reflexivity|].
  intros c Hc. unfold generateMockCards in Hc.
  apply list_elem_of_fmap in Hc as (i & -> & _).
  split; [done|]. split.
  - unfold SolverSpec.wellFormed. cbn [properties shape color number shading].
    split_and?; (apply tableAt_is_Some; [done|apply random_index; apply Hr]).
  - cbn [confidence]. apply random_confidence; apply Hr.
Qed.

(** [Math.random()] gives the largest double below 1 each time. *)
Definition nearOne : nat → Q := λ _, DoubleSpec.belowOne.

Lemma generateMockCards_valid_witness :
  (∀ n, DoubleSpec.isDouble (nearOne n) ∧ (0 <= nearOne n)%Q ∧ (nearOne n < 1)%Q) ∧
  id <$> generateMockCards nearOne = seq 0 12 ∧
  ∀ c : Card, c ∈ generateMockCards nearOne →
    corners c = None ∧ SolverSpec.wellFormed c ∧
    (9 # 10 <= confidence c)%Q ∧ (confidence c <= 1)%Q.
Proof.
  assert (∀ n, DoubleSpec.isDouble (nearOne n) ∧ (0 <= nearOne n)%Q ∧ (nearOne n < 1)%Q)
    as Hz by (intros n; split_and?; by vm_compute).
  split; [exact Hz|].
  exact (generateMockCards_valid nearOne Hz).
Defined.

(** The bound 1 is reached: with that value of [Math.random()] every mock
    card has confidence 1. *)
Example mock_confidence_reaches_one :
  Forall (λ c : Card, (confidence c == 1)%Q) (generateMockCards nearOne).
Proof. repeat constructor; by vm_compute. Qed.

(** *** What a call leaves in the cells *)

(** How the loop of step 2 ends, with all it leaves behind. *)
Inductive LoopEnd (st : HookState) (startTime : Q) (imageData : ImageData)
    (detections : list CardDetection.t) (idx0 : nat) (remaining : list CardDetection.t)
    (cards0 : list Card) (now1 now2 : Q) : HookState * Progress → Prop :=
| end_finished :
    LoopEnd st startTime imageData detections idx0 remaining cards0 now1 now2
      (finish st startTime cards0 now1 now2)
| end_failed :
    LoopEnd st startTime imageData detections idx0 remaining cards0 now1 now2 (failed st)
| end_suspended (d : CardDetection.t) (rest : list CardDetection.t) (image : ImageData) :
    remaining = d :: rest →
    LoopEnd st startTime imageData detections idx0 remaining cards0 now1 now2
      (st, Suspended {| Hook.imageData := imageData; Hook.startTime := startTime;
                        Hook.detections := detections; idx := idx0; detection := d;
                        cardImageData := image; cards := cards0 |}).

Lemma classifyLoop_end cv st imageData startTime detections idx remaining cards now1 now2 :
  LoopEnd st startTime imageData detections idx remaining cards now1 now2
    (classifyLoop cv st imageData startTime detections idx remaining cards now1 now2).
Proof.
  destruct cv as [e|]; [|rewrite classifyLoop_no_engine; constructor].
  destruct remaining as [|d rest]; simpl; [constructor|].
  destruct (CardDetection.corners d !! 0%nat), (CardDetection.corners d !! 1%nat),
    (CardDetection.corners d !! 2%nat), (CardDetection.corners d !! 3%nat);
    try constructor.
  destruct (warpPerspective e _ _ _ _); simpl; [|constructor].
  destruct (classifierRef st); by econstructor.
Qed.

Section FramesMore.
Variable MOCK_MODE : bool.

(** What a turn leaves in the [results] cell, given what was there. *)
Definition cellAfter (old : option ProcessedResult.t)
    (r : System * option (option ProcessedResult.t)) : Prop :=
  match r.2 with
  | Some (Some res) =>
      results (hook r.1) = Some res ∧
      ProcessedResult.sets res = findAllSets (ProcessedResult.cards res)
  | _ => results (hook r.1) = old
  end.

Lemma cellAfter_loop (s : System) (others : list Awaiting) (st : HookState)
    startTime imageData detections idx remaining cards now1 now2 r :
  LoopEnd st startTime imageData detections idx remaining cards now1 now2 r →
  cellAfter (results st) (withProgress s others r).
Proof. intros [| |d rest image Hrem]; unfold cellAfter; simpl; done. Qed.

(** The [results] cell changes in two ways only: a call of [processFrame]
    that returns a result stores that result, whose sets are [findAllSets]
    of its cards; and [clearResults] empties the cell.  A call that is
    dropped, a call that fails and a call that goes on waiting leave the
    cell as it was. *)
Theorem results_cell (s : System) (e : Event) :
  match e with
  | CallClearResults => results (hook (step MOCK_MODE s e).1) = None
  | _ => cellAfter (results (hook s)) (step MOCK_MODE s e)
  end.
Proof.
  destruct e as [imageData random clock|n outcome clock| | | |cv']; simpl; try done.
  - unfold processFrame. destruct (isProcessingRef (hook s)); [done|].
    destruct (MOCK_MODE || _); [done|].
    destruct (negb (isOpenCVLoaded (cv s))); [done|].
    destruct (detectCardsOpenCV (cv s) imageData) as [detections|]; [|done].
    destruct (length detections =? 0)%nat; [done|].
    eapply (cellAfter_loop s (waiting s) (setIsProcessingRef true (hook s))).
    apply classifyLoop_end.
  - destruct (waiting s !! n) as [w|]; [|done].
    unfold processFrameResume. destruct outcome as [classification|]; [|done]. simpl.
    eapply cellAfter_loop. apply classifyLoop_end.
  - by destruct MOCK_MODE.
Qed.

(** Without a classifier, without an engine, or in mock mode, a call that is
    let in returns at once with the mock cards: it does not wait and it does
    not fail. *)
Theorem processFrame_mock (cv : option Engine) (random clock : nat → Q)
    (st : HookState) (imageData : ImageData) :
  MOCK_MODE = true ∨ classifierRef st = None ∨ isOpenCVLoaded cv = false →
  isProcessingRef st = false →
  ∃ st' res,
    processFrame MOCK_MODE cv random clock st imageData = (st', Returned (Some res)) ∧
    ProcessedResult.cards res = generateMockCards random ∧
    length (ProcessedResult.cards res) = 12%nat ∧
    isProcessingRef st' = false ∧ results st' = Some res.
Proof.
  intros Hmock Hflag. unfold processFrame. rewrite Hflag.
  destruct (MOCK_MODE || _) eqn:Hfirst.
  { by eexists _, _. }
  destruct (negb (isOpenCVLoaded cv)) eqn:Hcv.
  { by eexists _, _. }
  exfalso. apply orb_false_iff in Hfirst as [Hm Hc].
  apply negb_false_iff in Hc, Hcv. apply bool_decide_eq_true in Hc. simpl in Hc.
  destruct Hmock as [?|[Hnone|?]]; [congruence| |congruence].
  rewrite Hnone in Hc. by destruct Hc.
Qed.

(** *** Cards and detections *)

(** The card was built from the detection. *)
Definition fromDetection (d : CardDetection.t) (c : Card) : Prop :=
  bbox c = CardDetection.bbox d ∧
  corners c = Some (CardDetection.corners d) ∧
  confidence c = CardDetection.confidence d.

(** The cards at hand are those of the first detections, in order. *)
Definition matched (detections : list CardDetection.t) (cards : list Card) : Prop :=
  ∀ p c, cards !! p = Some c →
         id c = p ∧ ∃ d, detections !! p = Some d ∧ fromDetection d c.

(** A waiting call waits for the classification of [detections[idx]], and
    has a card for each detection before it. *)
Definition traced (w : Awaiting) : Prop :=
  detections w !! idx w = Some (detection w) ∧
  length (cards w) = idx w ∧
  matched (detections w) (cards w).

Definition allTraced (s : System) : Prop := ∀ w, w ∈ waiting s → traced w.

(** The card pushed when the classification of [detections[idx]] arrives. *)
Definition cardOf (w : Awaiting) (props : CardProperties) : Card :=
  {| id := idx w;
     bbox := CardDetection.bbox (detection w);
     corners := Some (CardDetection.corners (detection w));
     properties := props;
     confidence := CardDetection.confidence (detection w) |}.

Lemma matched_snoc (w : Awaiting) (props : CardProperties) :
  traced w → matched (detections w) (cards w ++ [cardOf w props]).
Proof.
  intros (Hdet & Hlen & Hm) p c Hp.
  apply lookup_app_Some in Hp as [Hp|[Hge Hp]]; [by apply Hm|].
  apply list_lookup_singleton_Some in Hp as [Hp0 <-].
  assert (p = idx w) as -> by lia. simpl. split; [done|].
  exists (detection w). by split.
Qed.

Lemma traced_next (w : Awaiting) (props : CardProperties) (d : CardDetection.t)
    (rest : list CardDetection.t) (image : ImageData) :
  traced w → drop (S (idx w)) (detections w) = d :: rest →
  traced {| imageData := imageData w; startTime := startTime w;
            detections := detections w; idx := S (idx w); detection := d;
            cardImageData := image; cards := cards w ++ [cardOf w props] |}.
Proof.
  intros Hw Hdrop. unfold traced. simpl. split_and?.
  - pose proof (lookup_drop (detections w) (S (idx w)) 0) as Hl.
    rewrite Nat.add_0_r in Hl. by rewrite <- Hl, Hdrop.
  - destruct Hw as (_ & Hlen & _). rewrite length_app. simpl. lia.
  - by apply matched_snoc.
Qed.

Lemma step_traced (s : System) (e : Event) :
  allTraced s → allTraced (step MOCK_MODE s e).1.
Proof.
  intros Hs. destruct e as [imageData random clock|n outcome clock| | | |cv']; simpl;
    try done.
  - unfold processFrame. destruct (isProcessingRef (hook s)); [done|].
    destruct (MOCK_MODE || _); [done|].
    destruct (negb (isOpenCVLoaded (cv s))); [done|].
    destruct (detectCardsOpenCV (cv s) imageData) as [detections|]; [|done].
    destruct (length detections =? 0)%nat; [done|].
    destruct (classifyLoop_end (cv s) (setIsProcessingRef true (hook s)) imageData
                (clock 0%nat) detections 0 detections [] (clock 1%nat) (clock 2%nat))
      as [| |d rest image Hrem]; try done.
    unfold withProgress. simpl. intros w Hw.
    apply elem_of_app in Hw as [Hw|Hw]; [by apply Hs|].
    apply list_elem_of_singleton in Hw as ->.
    unfold traced. simpl. split_and?; [by rewrite Hrem|done|].
    intros p c Hp. by rewrite lookup_nil in Hp.
  - destruct (waiting s !! n) as [w|] eqn:Hn; [|done].
    assert (traced w) as Hw by (eapply Hs, list_elem_of_lookup_2; exact Hn).
    assert (∀ w', w' ∈ delete n (waiting s) → traced w') as Hothers.
    { intros w' Hw'. apply Hs. eapply elem_of_submseteq; [exact Hw'|].
      apply submseteq_delete. }
    unfold processFrameResume. destruct outcome as [classification|]; [|done]. simpl.
    match goal with |- context [classifyLoop ?a ?b ?c ?d ?e ?f ?g ?h ?i ?j] =>
      destruct (classifyLoop_end a b c d e f g h i j) as [| |d' rest image Hrem] end;
      try done.
    unfold withProgress. simpl. intros w' Hw'.
    apply elem_of_app in Hw' as [Hw'|Hw']; [by apply Hothers|].
    apply list_elem_of_singleton in Hw' as ->.
    by eapply traced_next.
  - by destruct MOCK_MODE.
Qed.

Lemma reachable_traced (s : System) : reachable MOCK_MODE s → allTraced s.
Proof.
  induction 1 as [cv0|s e Hs IH].
  - intros w Hw. by apply elem_of_nil in Hw.
  - by apply step_traced.
Qed.

(** When the last classification of a frame arrives and the call returns a
    result, the cards of the result are the cards gathered so far followed
    by the card of the region just classified; the card at position p has
    id p and carries the box, the corners and the confidence of the p-th
    detection; and its properties, for the last card, are those the table
    lookup gives for the classification. *)
Theorem result_cards_match_detections (s s' : System) (n : nat) (w : Awaiting)
    (outcome : Completion ClassificationResult.t) (clock : nat → Q)
    (res : ProcessedResult.t) :
  reachable MOCK_MODE s →
  waiting s !! n = Some w →
  step MOCK_MODE s (ClassifySettles n outcome clock) = (s', Some (Some res)) →
  (∃ classification props,
     outcome = Normal classification ∧
     indicesToCard (ClassificationResult.shape classification)
                   (ClassificationResult.color classification)
                   (ClassificationResult.number classification)
                   (ClassificationResult.shading classification) = Normal props ∧
     ProcessedResult.cards res = (cards w ++ [cardOf w props])%list) ∧
  matched (detections w) (ProcessedResult.cards res) ∧
  (length (ProcessedResult.cards res) ≤ length (detections w))%nat.
Proof.
  intros Hs Hn Hstep.
  assert (traced w) as Hw.
  { eapply (reachable_traced s Hs), list_elem_of_lookup_2. exact Hn. }
  simpl in Hstep. rewrite Hn in Hstep. unfold processFrameResume in Hstep.
  destruct outcome as [classification|]; [|discriminate]. simpl in Hstep.
  match type of Hstep with context [classifyLoop ?a ?b ?c ?d ?e ?f ?g ?h ?i ?j] =>
    destruct (classifyLoop_end a b c d e f g h i j) as [| |d' rest image Hrem] end;
    try discriminate.
  unfold withProgress, finish in Hstep. simpl in Hstep. injection Hstep as _ <-. simpl.
  split; [by eexists _, _|]. split; [by apply matched_snoc|].
  destruct Hw as (Hdet & Hlen & _). apply lookup_lt_Some in Hdet.
  rewrite length_app. simpl. lia.
Qed.

(** A waiting call always waits for a region that exists; when its
    classification arrives the call returns, or it waits for the very next
    region of the same frame.  So a frame with n regions returns after at
    most n classifications. *)
Theorem frame_advances (s : System) (n : nat) (w : Awaiting)
    (outcome : Completion ClassificationResult.t) (clock : nat → Q) :
  reachable MOCK_MODE s →
  waiting s !! n = Some w →
  (idx w < length (detections w))%nat ∧
  ((∃ v, (step MOCK_MODE s (ClassifySettles n outcome clock)).2 = Some v)
   ∨ (∃ w', waiting (step MOCK_MODE s (ClassifySettles n outcome clock)).1
            = (delete n (waiting s) ++ [w'])%list ∧
            idx w' = S (idx w) ∧ detections w' = detections w ∧
            imageData w' = imageData w ∧ startTime w' = startTime w)).
Proof.
  intros Hs Hn.
  assert (traced w) as Hw.
  { eapply (reachable_traced s Hs), list_elem_of_lookup_2. exact Hn. }
  split; [destruct Hw as (Hdet & _); by apply lookup_lt_Some in Hdet|].
  simpl. rewrite Hn. unfold processFrameResume.
  destruct outcome as [classification|]; [|left; by eexists]. simpl.
  match goal with |- context [classifyLoop ?a ?b ?c ?d ?e ?f ?g ?h ?i ?j] =>
    destruct (classifyLoop_end a b c d e f g h i j) as [| |d' rest image Hrem] end.
  - left. by eexists.
  - left. by eexists.
  - right. eexists. split; [reflexivity|]. done.
Qed.

End FramesMore.

(** No classifier was ever stored: the first call answers with mock cards. *)
Lemma processFrame_mock_witness :
  let st := hook (mounted false None) in
  (false = true ∨ classifierRef st = None ∨ isOpenCVLoaded None = false) ∧
  isProcessingRef st = false ∧
  ∃ st' res,
    processFrame false None HookSpec.zeros HookSpec.zeros st DetectorSpec.frame1000
      = (st', Returned (Some res)) ∧
    ProcessedResult.cards res = generateMockCards HookSpec.zeros ∧
    length (ProcessedResult.cards res) = 12%nat ∧
    isProcessingRef st' = false ∧ results st' = Some res.
Proof.
  simpl. split; [right; left; reflexivity|]. split; [reflexivity|].
  apply (processFrame_mock false None HookSpec.zeros HookSpec.zeros
           (hook (mounted false None)) DetectorSpec.frame1000);
    [right; left; reflexivity|reflexivity].
Defined.

(** The frame with two regions, after the first classification arrived. *)
Definition secondRegionAwaited : System :=
  (step false HookSpec.frameInFlight HookSpec.classified).1.

Lemma secondRegionAwaited_reachable : reachable false secondRegionAwaited.
Proof. apply reachable_step, HookSpec.frameInFlight_reachable. Qed.

Lemma result_cards_match_detections_witness :
  ∃ w s' res,
    reachable false secondRegionAwaited ∧
    waiting secondRegionAwaited !! 0%nat = Some w ∧
    step false secondRegionAwaited HookSpec.classified = (s', Some (Some res)) ∧
    length (ProcessedResult.cards res) = 2%nat ∧
    matched (detections w) (ProcessedResult.cards res).
Proof.
  assert (∃ w s' res,
            waiting secondRegionAwaited !! 0%nat = Some w ∧
            step false secondRegionAwaited HookSpec.classified = (s', Some (Some res)) ∧
            length (ProcessedResult.cards res) = 2%nat)
    as (w & s' & res & Hw & Hstep & Hlen).
  { eexists _, _, _. split_and?; vm_compute; reflexivity. }
  exists w, s', res.
  split; [exact secondRegionAwaited_reachable|]. split; [exact Hw|].
  split; [exact Hstep|]. split; [exact Hlen|].
  exact (proj1 (proj2 (result_cards_match_detections false secondRegionAwaited s' 0%nat w
                         _ HookSpec.zeros res secondRegionAwaited_reachable Hw Hstep))).
Defined.

Lemma frame_advances_witness :
  ∃ w,
    reachable false HookSpec.frameInFlight ∧
    waiting HookSpec.frameInFlight !! 0%nat = Some w ∧
    (idx w < length (detections w))%nat.
Proof.
  assert (∃ w, waiting HookSpec.frameInFlight !! 0%nat = Some w) as [w Hw].
  { eexists. vm_compute. reflexivity. }
  exists w. split; [exact HookSpec.frameInFlight_reachable|]. split; [exact Hw|].
  exact (proj1 (frame_advances false HookSpec.frameInFlight 0%nat w Throws HookSpec.zeros
                  HookSpec.frameInFlight_reachable Hw)).
Defined.

End PipelineSpec.

(** ** The set on display *)

Module DisplaySpec.
Import Solver App Canvas.

(** With a result that has n > 0 sets, pressing the button k + 1 times from
    the state the effect leaves shows set number k mod n: the sets are shown
    in the order of the list, each once in every n presses, and the index is
    always one of the list.  Both indices stay equal.  Each press is handled
    with the index the press before left: the handler is made anew whenever
    [revealedSetIndex] changes. *)
Theorem handleSetRotation_cycles (r : ProcessedResult.t) (k : nat) :
  (0 < length (ProcessedResult.sets r))%nat →
  Nat.iter (S k) (handleSetRotation (Some r)) resetSelection
  = {| revealedSetIndex := Some (k mod length (ProcessedResult.sets r))%nat;
       highlightedSetIndex := Some (k mod length (ProcessedResult.sets r))%nat |}
  ∧ is_Some (ProcessedResult.sets r !! (k mod length (ProcessedResult.sets r))%nat).
Proof.
  intros Hn. split.
  - induction k as [|k IH].
    + simpl. destruct (Nat.eqb_spec (length (ProcessedResult.sets r)) 0); [lia|].
      by rewrite Nat.Div0.mod_0_l.
    + change (Nat.iter (S (S k)) ?f ?x) with (f (Nat.iter (S k) f x)). rewrite IH.
      unfold handleSetRotation. simpl revealedSetIndex.
      destruct (Nat.eqb_spec (length (ProcessedResult.sets r)) 0); [lia|].
      rewrite Nat.Div0.add_mod_idemp_l. by replace (k + 1)%nat with (S k) by lia.
  - apply lookup_lt_is_Some. apply Nat.mod_upper_bound. lia.
Qed.

Lemma includes_iff (i j k idx : nat) :
  includes (i, j, k) idx = true ↔ idx = i ∨ idx = j ∨ idx = k.
Proof. unfold includes. rewrite !orb_true_iff, !Nat.eqb_eq. tauto. Qed.

(** When the sets of a result are those [findAllSets] reports for its cards,
    as in every result [processFrame] returns, and the highlighted index is
    one of the list, the canvas highlights exactly three cards, at the
    increasing positions of that set, and those three cards form a valid
    Set. *)
Theorem highlighted_cards_form_a_set (r : ProcessedResult.t) (h : nat) :
  ProcessedResult.sets r = findAllSets (ProcessedResult.cards r) →
  (h < length (ProcessedResult.sets r))%nat →
  ∃ i j k ci cj ck,
    (i < j)%nat ∧ (j < k)%nat ∧
    ProcessedResult.cards r !! i = Some ci ∧
    ProcessedResult.cards r !! j = Some cj ∧
    ProcessedResult.cards r !! k = Some ck ∧
    isValidSet ci cj ck = true ∧
    ∀ idx, isHighlighted r (Some h) idx = true ↔ idx = i ∨ idx = j ∨ idx = k.
Proof.
  intros Hsets Hh. apply lookup_lt_is_Some in Hh as [set Hset].
  assert (set ∈ findAllSets (ProcessedResult.cards r)) as Hin.
  { rewrite <- Hsets. by eapply list_elem_of_lookup_2. }
  apply SolverSpec.findAllSets_elem in Hin as (i & j & k & Hi & Hj & Hk & Hin).
  apply SolverSpec.bruteStep_elem in Hin as (ci & cj & ck & Hci & Hcj & Hck & Hvalid & ->).
  apply SolverSpec.elem_of_range in Hj, Hk.
  exists i, j, k, ci, cj, ck. split_and?; try done; try lia.
  intros idx. unfold isHighlighted. rewrite Hset. simpl. apply includes_iff.
Qed.

(** Nothing is highlighted before the button is pressed, nor for an index
    the list of sets does not have. *)
Lemma nothing_highlighted (r : ProcessedResult.t) (idx : nat) :
  isHighlighted r None idx = false ∧
  ∀ h, (length (ProcessedResult.sets r) ≤ h)%nat → isHighlighted r (Some h) idx = false.
Proof.
  split; [done|]. intros h Hh. unfold isHighlighted.
  by rewrite (lookup_ge_None_2 _ _ Hh).
Qed.

(** Four cards with one set among them. *)
Definition fourCards : ProcessedResult.t :=
  {| ProcessedResult.cards := [SolverSpec.cardA; SolverSpec.cardB; SolverSpec.cardC;
                               SolverSpec.cardD];
     ProcessedResult.sets :=
       findAllSets [SolverSpec.cardA; SolverSpec.cardB; SolverSpec.cardC; SolverSpec.cardD];
     ProcessedResult.timestamp := 0;
     ProcessedResult.inferenceTime := 0 |}.

Lemma handleSetRotation_cycles_witness :
  (0 < length (ProcessedResult.sets fourCards))%nat ∧
  Nat.iter 3 (handleSetRotation (Some fourCards)) resetSelection
  = {| revealedSetIndex := Some (2 mod length (ProcessedResult.sets fourCards))%nat;
       highlightedSetIndex := Some (2 mod length (ProcessedResult.sets fourCards))%nat |}.
Proof.
  assert (0 < length (ProcessedResult.sets fourCards))%nat as Hn by (vm_compute; lia).
  split; [exact Hn|]. exact (proj1 (handleSetRotation_cycles fourCards 2 Hn)).
Defined.

Lemma highlighted_cards_form_a_set_witness :
  ProcessedResult.sets fourCards = findAllSets (ProcessedResult.cards fourCards) ∧
  (0 < length (ProcessedResult.sets fourCards))%nat ∧
  ∃ i j k ci cj ck,
    (i < j)%nat ∧ (j < k)%nat ∧
    ProcessedResult.cards fourCards !! i = Some ci ∧
    ProcessedResult.cards fourCards !! j = Some cj ∧
    ProcessedResult.cards fourCards !! k = Some ck ∧
    isValidSet ci cj ck = true ∧
    ∀ idx, isHighlighted fourCards (Some 0%nat) idx = true ↔ idx = i ∨ idx = j ∨ idx = k.
Proof.
  assert (0 < length (ProcessedResult.sets fourCards))%nat as Hn by (vm_compute; lia).
  split; [reflexivity|]. split; [exact Hn|].
  exact (highlighted_cards_form_a_set fourCards 0 eq_refl Hn).
Defined.

End DisplaySpec.
